(** * KDTree: a shallow embedding of Point.h, BoundedPQueue.h and KDTree.h

    Coordinates and priorities are C++ [double]s in the source.  They are
    modelled as exact rationals [Q]: every statement below is about inputs on
    which double arithmetic is exact (no NaN, no rounding), and the concrete
    inputs used are small dyadic rationals.

    The file has two layers.
    - A value layer: [Node] is the tree a [Node*] points to, [KDTree] the pair
      of [root_] and [size_], and every member function is a function on
      these values.
    - A store layer ([Module Store]): nodes live in a heap addressed by
      locations, [insert] mutates the node [findNode] returns, and
      [deepcopyTree] allocates; it is related to the value layer by a
      representation predicate. *)

From Stdlib Require Import QArith Qabs Lqa Lia List Permutation Sorted Bool.
From stdpp Require Import base option list gmap.
Import ListNotations.

Local Close Scope Q_scope.
Local Open Scope nat_scope.
Local Set Warnings "-clear-no-such-hyp".

(* ================================================================== *)
(** ** Point.h *)

(** [Point<N>]: [double coords[N]].  A point is the list of its coordinates;
    [coord] is [operator[]], which the source only calls with an index below
    [N]. *)
Definition Point : Type := list Q.

Definition coord (p : Point) (index : nat) : Q := nth index p 0%Q.

(** [a < b] on coordinates, as a boolean. *)
Definition Qltb (a b : Q) : bool := negb (Qle_bool b a).

(** [Distance]: the squared Euclidean distance, accumulated over
    [i = 0 .. N-1]. *)
Definition Distance (N : nat) (one two : Point) : Q :=
  fold_left
    (fun result i =>
       (result + (coord one i - coord two i) * (coord one i - coord two i))%Q)
    (seq 0 N) 0%Q.

(** [operator==]: [std::equal] over the [N] coordinates. *)
Definition Point_eqb (N : nat) (one two : Point) : bool :=
  forallb (fun i => Qeq_bool (coord one i) (coord two i)) (seq 0 N).

(** [operator!=] *)
Definition Point_neqb (N : nat) (one two : Point) : bool :=
  negb (Point_eqb N one two).

(* ================================================================== *)
(** ** BoundedPQueue.h *)

(** What [best()] and [worst()] return: a stored priority, or
    [numeric_limits<double>::infinity()]. *)
Inductive priority : Type :=
| Finite (p : Q)
| Infinity.

(** [x < w] for a finite [x] and the result of [worst()]. *)
Definition lt_priority (x : Q) (w : priority) : bool :=
  match w with
  | Finite p => Qltb x p
  | Infinity => true
  end.

Module BoundedPQueue.
Section Queue.
Context {T : Type}.

(** [std::multimap<double, T> elems] is the list of its entries in
    iteration order (ascending key, equal keys in insertion order);
    [maximumSize] is the bound given to the constructor. *)
Record t : Type := mk { elems : list (Q * T); maximumSize : nat }.

(** [explicit BoundedPQueue(std::size_t maxSize)] *)
Definition create (maxSize : nat) : t :=
  {| elems := []; maximumSize := maxSize |}.

(** [std::multimap::insert]: the new entry goes at the upper bound of the
    entries whose key is not greater, that is before the first entry with
    a strictly greater key. *)
Fixpoint multimap_insert (e : Q * T) (l : list (Q * T)) : list (Q * T) :=
  match l with
  | [] => [e]
  | x :: l' =>
      if Qltb (fst e) (fst x) then e :: x :: l'
      else x :: multimap_insert e l'
  end.

Definition size (q : t) : nat := length (elems q).
Definition empty (q : t) : bool :=
  match elems q with [] => true | _ => false end.
Definition maxSize (q : t) : nat := maximumSize q.

(** [enqueue]: insert, then drop the last entry when the size exceeds
    the maximum. *)
Definition enqueue (value : T) (prio : Q) (q : t) : t :=
  let elems1 := multimap_insert (prio, value) (elems q) in
  if maximumSize q <? length elems1
  then {| elems := removelast elems1; maximumSize := maximumSize q |}
  else {| elems := elems1; maximumSize := maximumSize q |}.

(** [dequeueMin]: the value of the first entry, and the queue without it.
    The source dereferences [elems.begin()] unchecked; on an empty queue
    the model returns [None]. *)
Definition dequeueMin (q : t) : option (T * t) :=
  match elems q with
  | [] => None
  | (_, v) :: rest => Some (v, {| elems := rest; maximumSize := maximumSize q |})
  end.

Definition best (q : t) : priority :=
  match elems q with
  | [] => Infinity
  | (p, _) :: _ => Finite p
  end.

Definition worst (q : t) : priority :=
  match elems q with
  | [] => Infinity
  | e :: rest => Finite (fst (List.last rest e))
  end.

(** The entries are in ascending key order. *)
Definition sorted (l : list (Q * T)) : Prop :=
  StronglySorted (fun x y => (fst x <= fst y)%Q) l.

(** The states a queue goes through: ordered entries, at most
    [maximumSize] of them. *)
Definition wf (q : t) : Prop :=
  sorted (elems q) /\ size q <= maxSize q.

(** The states reached from the constructor by [enqueue] and
    [dequeueMin]. *)
Inductive reachable : t -> Prop :=
| reach_create maxSize : reachable (create maxSize)
| reach_enqueue q value prio : reachable q -> reachable (enqueue value prio q)
| reach_dequeue q v q' : reachable q -> dequeueMin q = Some (v, q') -> reachable q'.

(** [e] has the largest priority of [l]. *)
Definition is_largest (e : Q * T) (l : list (Q * T)) : Prop :=
  In e l /\ forall x, In x l -> (fst x <= fst e)%Q.
(** A run of [enqueue] calls, one per entry of [es], in order. *)
Definition enqueue_all (es : list (Q * T)) (q : t) : t :=
  fold_left (fun q e => enqueue (snd e) (fst e) q) es q.

(** The entries [es] put one by one into an unbounded [std::multimap]:
    ascending priority, equal priorities in the order of arrival. *)
Definition multimap_of (es : list (Q * T)) : list (Q * T) :=
  fold_left (fun acc e => multimap_insert e acc) es [].
End Queue.
Arguments t : clear implicits.
End BoundedPQueue.

Abbreviation BoundedPQueue := BoundedPQueue.t.

(* ================================================================== *)
(** ** KDTree.h, value layer *)

Module KD.
Section KDTreeDefs.
Context {ElemType : Type}.

(** [struct Node], seen through a [Node*]: [NULL], or a node with its
    point, children, level and value. *)
Inductive Node : Type :=
| NULL
| mkNode (point : Point) (left right : Node) (level : nat) (value : ElemType).

(** [node == NULL] *)
Definition is_NULL (node : Node) : bool :=
  match node with NULL => true | _ => false end.

(** [class KDTree]: [root_] and [size_]. *)
Record KDTree : Type := mkKDTree { root_ : Node; size_ : nat }.

(** [KDTree()] *)
Definition KDTree_empty : KDTree := {| root_ := NULL; size_ := 0 |}.

Definition size (T : KDTree) : nat := size_ T.
Definition empty (T : KDTree) : bool := size_ T =? 0.

(** The template parameter [N]. *)
Variable N : nat.

Definition dimension (T : KDTree) : nat := N.

(** *** buildTree *)

(** The lambda [cmp] of [buildTree]. *)
Definition cmp (axis : nat) (p1 p2 : Point * ElemType) : bool :=
  Qltb (coord (fst p1) axis) (coord (fst p2) axis).

(** [std::nth_element] is not code of this repository: it is a parameter
    of [buildTree], taking the comparison, the range and the position
    [nth - first], and returning the reordered range. *)
Definition nth_element_t : Type :=
  (Point * ElemType -> Point * ElemType -> bool) ->
  list (Point * ElemType) -> nat -> list (Point * ElemType).

(** What the C++ standard guarantees of [std::nth_element]: the range is
    permuted, no element at or after [nth] compares less than one before
    it, and no element after [nth] compares less than the one at [nth]. *)
Definition nth_element_ok (nth_element : nth_element_t) : Prop :=
  forall axis l n, n < length l ->
    Permutation l (nth_element (cmp axis) l n) /\
    (forall i j x y, i < n -> n <= j ->
       nth_element (cmp axis) l n !! i = Some x ->
       nth_element (cmp axis) l n !! j = Some y ->
       cmp axis y x = false) /\
    (forall j m y, n < j ->
       nth_element (cmp axis) l n !! n = Some m ->
       nth_element (cmp axis) l n !! j = Some y ->
       cmp axis y m = false).

(** One [std::nth_element] the standard allows: a range that is already
    arranged as required is left as it is, any other range is sorted. *)
Definition arranged (lt : Point * ElemType -> Point * ElemType -> bool)
           (l : list (Point * ElemType)) (n : nat) : bool :=
  forallb (fun x => forallb (fun y => negb (lt y x)) (drop n l)) (take n l) &&
  match l !! n with
  | Some m => forallb (fun y => negb (lt y m)) (drop (n + 1) l)
  | None => true
  end.

Fixpoint insert_sorted (lt : Point * ElemType -> Point * ElemType -> bool)
         (x : Point * ElemType) (l : list (Point * ElemType)) : list (Point * ElemType) :=
  match l with
  | [] => [x]
  | y :: l' => if lt x y then x :: y :: l' else y :: insert_sorted lt x l'
  end.

Definition insertion_sort (lt : Point * ElemType -> Point * ElemType -> bool)
           (l : list (Point * ElemType)) : list (Point * ElemType) :=
  fold_right (insert_sorted lt) [] l.

Definition nth_element_lazy : nth_element_t :=
  fun lt l n => if arranged lt l n then l else insertion_sort lt l.

(** [while (mid > start && (mid - 1)->first[axis] == mid->first[axis]) --mid;] *)
Fixpoint walk_left (axis : nat) (range : list (Point * ElemType)) (mid : nat) : nat :=
  match mid with
  | 0 => 0
  | S m =>
      match range !! m, range !! mid with
      | Some a, Some b =>
          if Qeq_bool (coord (fst a) axis) (coord (fst b) axis)
          then walk_left axis range m
          else mid
      | _, _ => mid
      end
  end.

(** [buildTree(start, end, currLevel)] on the range [range = [start, end)].
    The two recursive calls work on disjoint sub-ranges of the vector, so
    each gets its sub-range as a list.  [fuel] bounds the recursion depth;
    [length range] is enough. *)
Fixpoint buildTree_fuel (nth_element : nth_element_t) (fuel : nat)
         (range : list (Point * ElemType)) (currLevel : nat) : Node :=
  match fuel with
  | 0 => NULL
  | S fuel' =>
      match range with
      | [] => NULL
      | _ =>
          let axis := currLevel mod N in
          let len := length range in
          let range1 := nth_element (cmp axis) range (len / 2) in
          let mid := walk_left axis range1 (len / 2) in
          match range1 !! mid with
          | None => NULL
          | Some m =>
              mkNode (fst m)
                     (buildTree_fuel nth_element fuel' (take mid range1) (currLevel + 1))
                     (buildTree_fuel nth_element fuel' (drop (mid + 1) range1) (currLevel + 1))
                     currLevel (snd m)
          end
      end
  end.

Definition buildTree (nth_element : nth_element_t)
           (range : list (Point * ElemType)) (currLevel : nat) : Node :=
  buildTree_fuel nth_element (length range) range currLevel.

(** [KDTree(std::vector<std::pair<Point<N>, ElemType>>& points)] *)
Definition KDTree_build (nth_element : nth_element_t)
           (points : list (Point * ElemType)) : KDTree :=
  {| root_ := buildTree nth_element points 0; size_ := length points |}.

(** *** findNode, contains, at *)

(** [findNode]: the node holding [pt], else the node below which [pt]
    would be attached, else [NULL] for an empty tree. *)
Fixpoint findNode (currNode : Node) (pt : Point) : Node :=
  match currNode with
  | NULL => NULL
  | mkNode currPoint l r currLevel _ =>
      if Point_eqb N currPoint pt then currNode
      else if Qltb (coord pt (currLevel mod N)) (coord currPoint (currLevel mod N))
      then if is_NULL l then currNode else findNode l pt
      else if is_NULL r then currNode else findNode r pt
  end.

Definition contains (T : KDTree) (pt : Point) : bool :=
  match findNode (root_ T) pt with
  | NULL => false
  | mkNode p _ _ _ _ => Point_eqb N p pt
  end.

(** The exception [at] throws. *)
Inductive exception : Type := out_of_range.

(** [at]: the value, or [std::out_of_range]. *)
Definition at_ (T : KDTree) (pt : Point) : exception + ElemType :=
  match findNode (root_ T) pt with
  | NULL => inl out_of_range
  | mkNode p _ _ _ v =>
      if Point_neqb N p pt then inl out_of_range else inr v
  end.

(** *** insert *)

(** The assignments [insert] makes through [targetNode], on the value
    layer: [update_target f root pt] is [root] with [f] applied to the
    node [findNode root pt] returns. *)
Fixpoint update_target (f : Node -> Node) (currNode : Node) (pt : Point) : Node :=
  match currNode with
  | NULL => NULL
  | mkNode currPoint l r currLevel v =>
      if Point_eqb N currPoint pt then f currNode
      else if Qltb (coord pt (currLevel mod N)) (coord currPoint (currLevel mod N))
      then if is_NULL l then f currNode
           else mkNode currPoint (update_target f l pt) r currLevel v
      else if is_NULL r then f currNode
           else mkNode currPoint l (update_target f r pt) currLevel v
  end.

(** [targetNode->value = value] *)
Definition set_value (value : ElemType) (n : Node) : Node :=
  match n with
  | NULL => NULL
  | mkNode p l r lvl _ => mkNode p l r lvl value
  end.

(** [targetNode->left = newNode] or [targetNode->right = newNode] *)
Definition attach (pt : Point) (value : ElemType) (n : Node) : Node :=
  match n with
  | NULL => NULL
  | mkNode p l r currLevel v =>
      let newNode := mkNode pt NULL NULL (currLevel + 1) value in
      if Qltb (coord pt (currLevel mod N)) (coord p (currLevel mod N))
      then mkNode p newNode r currLevel v
      else mkNode p l newNode currLevel v
  end.

Definition insert (T : KDTree) (pt : Point) (value : ElemType) : KDTree :=
  match findNode (root_ T) pt with
  | NULL => {| root_ := mkNode pt NULL NULL 0 value; size_ := 1 |}
  | mkNode p _ _ _ _ =>
      if Point_eqb N p pt
      then {| root_ := update_target (set_value value) (root_ T) pt;
              size_ := size_ T |}
      else {| root_ := update_target (attach pt value) (root_ T) pt;
              size_ := size_ T + 1 |}
  end.

(** *** kNNValue *)

(** [nearestNeighborRecurse], with the queue passed through. *)
Fixpoint nearestNeighborRecurse (currNode : Node) (key : Point)
         (pQueue : BoundedPQueue ElemType) : BoundedPQueue ElemType :=
  match currNode with
  | NULL => pQueue
  | mkNode currPoint l r currLevel value =>
      let pQueue := BoundedPQueue.enqueue value (Distance N currPoint key) pQueue in
      let a := currLevel mod N in
      let isLeftTree := Qltb (coord key a) (coord currPoint a) in
      let pQueue :=
        if isLeftTree then nearestNeighborRecurse l key pQueue
        else nearestNeighborRecurse r key pQueue in
      if (BoundedPQueue.size pQueue <? BoundedPQueue.maxSize pQueue)
         || lt_priority (Qabs (coord key a - coord currPoint a)) (BoundedPQueue.worst pQueue)
      then if isLeftTree then nearestNeighborRecurse r key pQueue
           else nearestNeighborRecurse l key pQueue
      else pQueue
  end.

(** The same function, also recording every subtree it is called on, in
    call order (a [NULL] child counts: the call is made and returns). *)
Fixpoint nearestNeighborTrace (currNode : Node) (key : Point)
         (pQueue : BoundedPQueue ElemType) : BoundedPQueue ElemType * list Node :=
  match currNode with
  | NULL => (pQueue, [NULL])
  | mkNode currPoint l r currLevel value =>
      let pQueue := BoundedPQueue.enqueue value (Distance N currPoint key) pQueue in
      let a := currLevel mod N in
      let isLeftTree := Qltb (coord key a) (coord currPoint a) in
      let near :=
        if isLeftTree then nearestNeighborTrace l key pQueue
        else nearestNeighborTrace r key pQueue in
      let pQueue := fst near in
      if (BoundedPQueue.size pQueue <? BoundedPQueue.maxSize pQueue)
         || lt_priority (Qabs (coord key a - coord currPoint a)) (BoundedPQueue.worst pQueue)
      then let far :=
             if isLeftTree then nearestNeighborTrace r key pQueue
             else nearestNeighborTrace l key pQueue in
           (fst far, currNode :: snd near ++ snd far)
      else (pQueue, currNode :: snd near)
  end.

Context `{EqDecision ElemType} `{Inhabited ElemType}.

(** [std::unordered_map<ElemType, int> counter].  Its iteration order is
    unspecified in C++; the model enumerates the labels in the order of
    their first insertion.  [incr] is [++counter[x]]. *)
Fixpoint incr (x : ElemType) (counter : list (ElemType * Z)) : list (ElemType * Z) :=
  match counter with
  | [] => [(x, 1%Z)]
  | (y, c) :: rest =>
      if decide (x = y) then (y, (c + 1)%Z) :: rest
      else (y, c) :: incr x rest
  end.

(** [while (!pQueue.empty()) ++counter[pQueue.dequeueMin()];]
    ([fuel] is the number of iterations allowed; the size of the queue is
    enough). *)
Fixpoint count_loop (fuel : nat) (pQueue : BoundedPQueue ElemType)
         (counter : list (ElemType * Z)) : list (ElemType * Z) :=
  match fuel with
  | 0 => counter
  | S fuel' =>
      match BoundedPQueue.dequeueMin pQueue with
      | None => counter
      | Some (v, pQueue') => count_loop fuel' pQueue' (incr v counter)
      end
  end.

(** [for (const auto &p : counter) if (p.second > cnt) { ... }] *)
Fixpoint most_frequent (counter : list (ElemType * Z)) (result : ElemType) (cnt : Z) : ElemType :=
  match counter with
  | [] => result
  | (x, c) :: rest =>
      if (cnt <? c)%Z then most_frequent rest x c
      else most_frequent rest result cnt
  end.

(** The tail of [kNNValue]: tally the queue and pick the most frequent
    label.  [ElemType result;] starts as [inhabitant]. *)
Definition majority (pQueue : BoundedPQueue ElemType) : ElemType :=
  let counter := count_loop (BoundedPQueue.size pQueue) pQueue [] in
  most_frequent counter inhabitant (-1)%Z.

Definition kNNValue (T : KDTree) (key : Point) (k : nat) : ElemType :=
  let pQueue := BoundedPQueue.create k in
  if empty T then inhabitant
  else majority (nearestNeighborRecurse (root_ T) key pQueue).

(** [contains], on a subtree. *)
Definition found (t : Node) (pt : Point) : bool :=
  match findNode t pt with
  | NULL => false
  | mkNode p _ _ _ _ => Point_eqb N p pt
  end.

(** The trees reached from [T0] by a sequence of inserts. *)
Definition inserts (T0 : KDTree) (ops : list (Point * ElemType)) : KDTree :=
  fold_left (fun T op => insert T (fst op) (snd op)) ops T0.

(** The priority [worst()] reports is above [x]; an empty queue reports
    infinity, which is above everything. *)
Definition below_worst (x : Q) (q : BoundedPQueue ElemType) : Prop :=
  match BoundedPQueue.worst q with
  | Finite w => (x < w)%Q
  | Infinity => True
  end.

(** [x] does not come after [y] in the order of [cmp]. *)
Definition cmp_le (axis : nat) (x y : Point * ElemType) : Prop :=
  cmp axis y x = false.

(** The number of nodes on the longest path from the root. *)
Fixpoint height (t : Node) : nat :=
  match t with
  | NULL => 0
  | mkNode _ l r _ _ => S (Nat.max (height l) (height r))
  end.

(** *** What the tree holds *)

(** The (point, label) pairs of the nodes, root first. *)
Fixpoint bindings (t : Node) : list (Point * ElemType) :=
  match t with
  | NULL => []
  | mkNode p l r _ v => (p, v) :: bindings l ++ bindings r
  end.

Definition points (t : Node) : list Point := map fst (bindings t).

(** Some node of [t] holds a point equal to [pt]. *)
Definition stored (pt : Point) (t : Node) : Prop :=
  exists p, In p (points t) /\ Point_eqb N p pt = true.

(** The axis invariant of [struct Node]: at a node of level [L], the left
    subtree is strictly below the node on coordinate [L mod N], the right
    subtree is at or above it. *)
Fixpoint axis_invariant (t : Node) : Prop :=
  match t with
  | NULL => True
  | mkNode p l r L _ =>
      Forall (fun x => (coord x (L mod N) < coord p (L mod N))%Q) (points l) /\
      Forall (fun x => (coord p (L mod N) <= coord x (L mod N))%Q) (points r) /\
      axis_invariant l /\ axis_invariant r
  end.

Fixpoint axis_invariantb (t : Node) : bool :=
  match t with
  | NULL => true
  | mkNode p l r L _ =>
      forallb (fun x => Qltb (coord x (L mod N)) (coord p (L mod N))) (points l) &&
      forallb (fun x => Qle_bool (coord p (L mod N)) (coord x (L mod N))) (points r) &&
      axis_invariantb l && axis_invariantb r
  end.

(** No two nodes hold equal points. *)
Fixpoint distinct_points (ps : list Point) : Prop :=
  match ps with
  | [] => True
  | p :: rest => Forall (fun x => Point_eqb N p x = false) rest /\ distinct_points rest
  end.

Fixpoint distinct_pointsb (ps : list Point) : bool :=
  match ps with
  | [] => true
  | p :: rest => forallb (fun x => negb (Point_eqb N p x)) rest && distinct_pointsb rest
  end.

(** The invariant of [class KDTree]. *)
Definition tree_invariant (T : KDTree) : Prop :=
  axis_invariant (root_ T) /\
  distinct_points (points (root_ T)) /\
  size_ T = length (points (root_ T)).

(** *** The linear scan the search is compared with *)

(** Follows the specification's words: the [k] points nearest to [key]
    by squared distance, found by going through all nodes and keeping
    them ordered by distance; then the same tally as [kNNValue]. *)
Definition linear_scan (t : Node) (key : Point) (k : nat) : list (Q * ElemType) :=
  take k (fold_left
            (fun acc b => BoundedPQueue.multimap_insert (Distance N (fst b) key, snd b) acc)
            (bindings t) []).

Definition naive_kNNValue (T : KDTree) (key : Point) (k : nat) : ElemType :=
  majority {| BoundedPQueue.elems := linear_scan (root_ T) key k;
              BoundedPQueue.maximumSize := k |}.
(** *** Notions used to state further properties *)

(** What [at] reads for [pt] in the subtree [t]: the value of the node
    [findNode] returns, when that node holds [pt]. *)
Definition lookup (t : Node) (pt : Point) : option ElemType :=
  match findNode t pt with
  | NULL => None
  | mkNode p _ _ _ v => if Point_eqb N p pt then Some v else None
  end.

(** The entries the search enqueues for the nodes of [t]: squared distance
    to [key], and label. *)
Definition entries (t : Node) (key : Point) : list (Q * ElemType) :=
  map (fun b => (Distance N (fst b) key, snd b)) (bindings t).

(** Every node of [t] has its depth as [level], for a root at depth [d]. *)
Fixpoint levels_from (d : nat) (t : Node) : Prop :=
  match t with
  | NULL => True
  | mkNode _ l r L _ => L = d /\ levels_from (S d) l /\ levels_from (S d) r
  end.

(** The axis invariant without strictness on the left: at a node of level
    [L] the left subtree is at or below the node on coordinate [L mod N], the
    right subtree at or above it. *)
Fixpoint split_invariant (t : Node) : Prop :=
  match t with
  | NULL => True
  | mkNode p l r L _ =>
      Forall (fun x => (coord x (L mod N) <= coord p (L mod N))%Q) (points l) /\
      Forall (fun x => (coord p (L mod N) <= coord x (L mod N))%Q) (points r) /\
      split_invariant l /\ split_invariant r
  end.

(** The number of entries of [l] that carry the label [x]. *)
Definition votes (x : ElemType) (l : list (Q * ElemType)) : nat :=
  length (filter (fun e => bool_decide (snd e = x)) l).

(** On every axis, no coordinate value occurs in two pairs of [pts]. *)
Definition coordinates_differ (pts : list (Point * ElemType)) : Prop :=
  forall axis (c : Q), axis < N ->
    length (List.filter (fun x => Qeq_bool (coord (fst x) axis) c) pts) <= 1.

(** The same, as a check that can be run. *)
Fixpoint pairwise_differ (axis : nat) (pts : list (Point * ElemType)) : bool :=
  match pts with
  | [] => true
  | x :: rest =>
      forallb (fun y => negb (Qeq_bool (coord (fst x) axis) (coord (fst y) axis))) rest
      && pairwise_differ axis rest
  end.

Definition coordinates_differb (pts : list (Point * ElemType)) : bool :=
  forallb (fun axis => pairwise_differ axis pts) (seq 0 N).

(** What [counter] holds for the label [x]; 0 when [x] is not a key. *)
Fixpoint counter_get (x : ElemType) (counter : list (ElemType * Z)) : Z :=
  match counter with
  | [] => 0%Z
  | (y, c) :: rest => if decide (x = y) then c else counter_get x rest
  end.
End KDTreeDefs.

Arguments Node : clear implicits.
Arguments KDTree : clear implicits.
Arguments nth_element_t : clear implicits.
End KD.

(* ================================================================== *)
(** ** KDTree.h, store layer *)

(** Here a [Node*] is a location of a heap of nodes ([None] is [NULL]), a
    [KDTree] object lives at an address of a second map, and the member
    functions read and write these maps as the source reads and writes
    memory.  Functions that follow pointers take [fuel]; reading through a
    dangling pointer and running out of fuel both give [None]. *)
Module Store.

Abbreviation loc := positive.

Section StoreDefs.
Context {ElemType : Type}.
Variable N : nat.

(** [struct Node] *)
Record Node : Type := mkNode {
  point : Point;
  left : option loc;
  right : option loc;
  level : nat;
  value : ElemType
}.

(** [class KDTree] *)
Record KDTree : Type := mkKDTree { root_ : option loc; size_ : nat }.

(** Memory: the nodes allocated with [new], and the [KDTree] objects. *)
Record state : Type := mkState {
  nodes : gmap loc Node;
  objects : gmap loc KDTree
}.

(** [n->left = p], [n->right = p], [n->value = v] *)
Definition with_left (p : option loc) (n : Node) : Node :=
  mkNode (point n) p (right n) (level n) (value n).
Definition with_right (p : option loc) (n : Node) : Node :=
  mkNode (point n) (left n) p (level n) (value n).
Definition with_value (v : ElemType) (n : Node) : Node :=
  mkNode (point n) (left n) (right n) (level n) v.

(** [new Node(...)]: a location that is not in use. *)
Definition new (h : gmap loc Node) (n : Node) : loc * gmap loc Node :=
  let l := fresh (dom h) in (l, <[l := n]> h).

(** Enough fuel for any walk down a tree stored in [h]. *)
Definition fuel_of (h : gmap loc Node) : nat := S (size h).

(** [deepcopyTree] *)
Fixpoint deepcopyTree (fuel : nat) (h : gmap loc Node) (root : option loc)
  : option (option loc * gmap loc Node) :=
  match fuel with
  | 0 => None
  | S fuel' =>
      match root with
      | None => Some (None, h)
      | Some r =>
          n ← h !! r;
          let '(newRoot, h) := new h n in
          n ← h !! r;
          '(l', h) ← deepcopyTree fuel' h (left n);
          let h := alter (with_left l') newRoot h in
          n ← h !! r;
          '(r', h) ← deepcopyTree fuel' h (right n);
          let h := alter (with_right r') newRoot h in
          Some (Some newRoot, h)
      end
  end.

(** [freeResource] *)
Fixpoint freeResource (fuel : nat) (h : gmap loc Node) (currNode : option loc)
  : option (gmap loc Node) :=
  match fuel with
  | 0 => None
  | S fuel' =>
      match currNode with
      | None => Some h
      | Some c =>
          n ← h !! c;
          h ← freeResource fuel' h (left n);
          n ← h !! c;
          h ← freeResource fuel' h (right n);
          Some (delete c h)
      end
  end.

(** [findNode] *)
Fixpoint findNode (fuel : nat) (h : gmap loc Node) (currNode : option loc) (pt : Point)
  : option (option loc) :=
  match fuel with
  | 0 => None
  | S fuel' =>
      match currNode with
      | None => Some None
      | Some c =>
          n ← h !! c;
          if Point_eqb N (point n) pt then Some (Some c)
          else if Qltb (coord pt (level n mod N)) (coord (point n) (level n mod N))
          then match left n with
               | None => Some (Some c)
               | Some _ => findNode fuel' h (left n) pt
               end
          else match right n with
               | None => Some (Some c)
               | Some _ => findNode fuel' h (right n) pt
               end
      end
  end.

(** [KDTree()], for the object at a fresh address. *)
Definition construct_empty (st : state) : loc * state :=
  let this := fresh (dom (objects st)) in
  (this, {| nodes := nodes st;
            objects := <[this := {| root_ := None; size_ := 0 |}]> (objects st) |}).

(** [KDTree(const KDTree& rhs)], for the object at a fresh address. *)
Definition copy_construct (st : state) (rhs : loc) : option (loc * state) :=
  let this := fresh (dom (objects st)) in
  R ← objects st !! rhs;
  '(r, h) ← deepcopyTree (fuel_of (nodes st)) (nodes st) (root_ R);
  Some (this, {| nodes := h;
                 objects := <[this := {| root_ := r; size_ := size_ R |}]> (objects st) |}).

(** [operator=] *)
Definition assign (st : state) (this rhs : loc) : option state :=
  if decide (this = rhs) then Some st
  else
    T ← objects st !! this;
    h ← freeResource (fuel_of (nodes st)) (nodes st) (root_ T);
    R ← objects st !! rhs;
    '(r, h) ← deepcopyTree (fuel_of h) h (root_ R);
    Some {| nodes := h;
            objects := <[this := {| root_ := r; size_ := size_ R |}]> (objects st) |}.

(** [insert] *)
Definition insert (st : state) (this : loc) (pt : Point) (v : ElemType) : option state :=
  T ← objects st !! this;
  targetNode ← findNode (fuel_of (nodes st)) (nodes st) (root_ T) pt;
  match targetNode with
  | None =>
      let '(newNode, h) := new (nodes st) (mkNode pt None None 0 v) in
      Some {| nodes := h;
              objects := <[this := {| root_ := Some newNode; size_ := 1 |}]> (objects st) |}
  | Some target =>
      n ← nodes st !! target;
      if Point_eqb N (point n) pt
      then Some {| nodes := alter (with_value v) target (nodes st);
                   objects := objects st |}
      else
        let currLevel := level n in
        let '(newNode, h) := new (nodes st) (mkNode pt None None (currLevel + 1) v) in
        let h :=
          if Qltb (coord pt (currLevel mod N)) (coord (point n) (currLevel mod N))
          then alter (with_left (Some newNode)) target h
          else alter (with_right (Some newNode)) target h in
        Some {| nodes := h;
                objects := <[this := {| root_ := root_ T; size_ := size_ T + 1 |}]> (objects st) |}
  end.

(** A sequence of inserts into the object at [this]. *)
Fixpoint inserts (st : state) (this : loc) (ops : list (Point * ElemType)) : option state :=
  match ops with
  | [] => Some st
  | op :: ops' => st' ← insert st this (fst op) (snd op); inserts st' this ops'
  end.

(** *** The tree a pointer stands for *)

(** [repr h p t F]: in the heap [h] the pointer [p] is the root of the tree
    [t] of the value layer, and [F] is the set of the locations of its
    nodes; no location occurs twice. *)
Inductive repr (h : gmap loc Node) : option loc -> KD.Node ElemType -> gset loc -> Prop :=
| repr_NULL : repr h None KD.NULL ∅
| repr_node c n tl tr Fl Fr F :
    h !! c = Some n ->
    repr h (left n) tl Fl ->
    repr h (right n) tr Fr ->
    c ∉ Fl -> c ∉ Fr -> Fl ## Fr ->
    F = {[c]} ∪ Fl ∪ Fr ->
    repr h (Some c) (KD.mkNode (point n) tl tr (level n) (value n)) F.

(** [holds st a T F]: the object at address [a] has the size of [T] and
    its nodes, at the locations [F], form the tree of [T]. *)
Definition holds (st : state) (a : loc) (T : KD.KDTree ElemType) (F : gset loc) : Prop :=
  exists o, objects st !! a = Some o /\
            repr (nodes st) (root_ o) (KD.root_ T) F /\
            size_ o = KD.size_ T.

(** Two objects that share no node. *)
Definition separate (st : state) (a c : loc) (Ta Tc : KD.KDTree ElemType) : Prop :=
  a <> c /\ exists Fa Fc, holds st a Ta Fa /\ holds st c Tc Fc /\ Fa ## Fc.
(** *** Further member functions *)

(** [contains] *)
Definition contains (st : state) (this : loc) (pt : Point) : option bool :=
  T ← objects st !! this;
  node ← findNode (fuel_of (nodes st)) (nodes st) (root_ T) pt;
  match node with
  | None => Some false
  | Some c => n ← nodes st !! c; Some (Point_eqb N (point n) pt)
  end.

(** [at]: the value, or the exception. *)
Definition at_ (st : state) (this : loc) (pt : Point) : option (KD.exception + ElemType) :=
  T ← objects st !! this;
  node ← findNode (fuel_of (nodes st)) (nodes st) (root_ T) pt;
  match node with
  | None => Some (inl KD.out_of_range)
  | Some c =>
      n ← nodes st !! c;
      if Point_neqb N (point n) pt then Some (inl KD.out_of_range)
      else Some (inr (value n))
  end.

(** [operator[]]: the location of the node whose [value] the returned
    reference designates, and the store after the call.  [dflt] is
    [ElemType()]. *)
Definition index (st : state) (this : loc) (pt : Point) (dflt : ElemType)
  : option (loc * state) :=
  T ← objects st !! this;
  node ← findNode (fuel_of (nodes st)) (nodes st) (root_ T) pt;
  match node with
  | Some c =>
      n ← nodes st !! c;
      if Point_eqb N (point n) pt then Some (c, st)
      else
        st' ← insert st this pt dflt;
        n' ← nodes st' !! c;
        match left n' with
        | Some l =>
            ln ← nodes st' !! l;
            if Point_eqb N (point ln) pt then Some (l, st')
            else r ← right n'; _ ← nodes st' !! r; Some (r, st')
        | None => r ← right n'; _ ← nodes st' !! r; Some (r, st')
        end
  | None =>
      st' ← insert st this pt dflt;
      T' ← objects st' !! this;
      r ← root_ T';
      _ ← nodes st' !! r;
      Some (r, st')
  end.

(** [~KDTree()]: the nodes are freed and the object is gone. *)
Definition destroy (st : state) (this : loc) : option state :=
  T ← objects st !! this;
  h ← freeResource (fuel_of (nodes st)) (nodes st) (root_ T);
  Some {| nodes := h; objects := delete this (objects st) |}.
End StoreDefs.

Arguments Node : clear implicits.
Arguments state : clear implicits.
End Store.

(* ================================================================== *)
(** ** Concrete trees and queues *)

Module Examples.
Import KD.

(** Five labelled points of the plane; on axis 0 their coordinates are
    5, 3, 5, 7, 8. *)
Definition five_points : list (Point * nat) :=
  [ ([5; 1]%Q, 0); ([3; 0]%Q, 1); ([5; 0]%Q, 2); ([7; 0]%Q, 3); ([8; 0]%Q, 4) ].

Definition five_tree : KDTree nat := KDTree_build 2 nth_element_lazy five_points.

(** The same point twice, with two labels. *)
Definition twice_points : list (Point * nat) :=
  [ ([1; 1]%Q, 7); ([1; 1]%Q, 8) ].

Definition twice_tree : KDTree nat := KDTree_build 2 nth_element_lazy twice_points.

(** Three points with coordinates that are multiples of 1/8, inserted one
    by one; the labels are 1, 1 and 2. *)
Definition three_inserts : list (Point * nat) :=
  [ ([1 # 2; 10]%Q, 1); ([-5 # 8; 0]%Q, 1); ([1 # 2; 0]%Q, 2) ].

Definition three_tree : KDTree nat :=
  fold_left (fun T op => insert 2 T (fst op) (snd op)) three_inserts KDTree_empty.

(** Three inserted points; seen from the key (0, 1) the gap to the root's
    splitting line equals the squared distance to its left child. *)
Definition tie_inserts : list (Point * nat) :=
  [ ([1; 0]%Q, 1); ([0; 0]%Q, 2); ([1; 1]%Q, 3) ].

Definition tie_tree : KDTree nat :=
  fold_left (fun T op => insert 2 T (fst op) (snd op)) tie_inserts KDTree_empty.

(** A store with one object at address 1 whose tree is a single node at
    location 1, and the tree of the value layer it stands for. *)
Definition one_node_store : Store.state nat :=
  {| Store.nodes := {[ 1%positive := Store.mkNode [1; 2]%Q None None 0 5 ]};
     Store.objects := {[ 1%positive := Store.mkKDTree (Some 1%positive) 1 ]} |}.

Definition one_node_tree : KDTree nat :=
  {| root_ := mkNode [1; 2]%Q NULL NULL 0 5; size_ := 1 |}.

(** A store with two objects, at addresses 1 and 2, each with a tree of a
    single node of its own, and the tree the second one stands for. *)
Definition two_object_store : Store.state nat :=
  {| Store.nodes := <[ 2%positive := Store.mkNode [3; 4]%Q None None 0 6 ]>
                      (Store.nodes one_node_store);
     Store.objects := <[ 2%positive := Store.mkKDTree (Some 2%positive) 1 ]>
                        (Store.objects one_node_store) |}.

Definition other_node_tree : KDTree nat :=
  {| root_ := mkNode [3; 4]%Q NULL NULL 0 6; size_ := 1 |}.

(** Four labelled points of the plane; no coordinate value occurs twice on
    either axis. *)
Definition spread_points : list (Point * nat) :=
  [ ([1; 7]%Q, 0); ([2; 5]%Q, 1); ([3; 9]%Q, 2); ([4; 6]%Q, 3) ].

Definition spread_tree : KDTree nat := KDTree_build 2 nth_element_lazy spread_points.

(** A queue of capacity 2 holding two entries. *)
Definition full_queue : BoundedPQueue nat :=
  BoundedPQueue.enqueue 11 (3 # 1) (BoundedPQueue.enqueue 10 (1 # 2) (BoundedPQueue.create 2)).
End Examples.

(* ================================================================== *)
(** * Properties *)

(** ** Comparisons on coordinates *)

Lemma Qltb_lt (a b : Q) : Qltb a b = true <-> (a < b)%Q.
Proof.
  unfold Qltb. rewrite negb_true_iff. split.
  - intros E. apply Qnot_le_lt. intros L. apply Qle_bool_iff in L. congruence.
  - intros L. destruct (Qle_bool b a) eqn:E; [|reflexivity].
    apply Qle_bool_iff in E. lra.
Qed.

Lemma Qltb_ge (a b : Q) : Qltb a b = false <-> (b <= a)%Q.
Proof.
  unfold Qltb. rewrite negb_false_iff. apply Qle_bool_iff.
Qed.

(** ** The bounded priority queue *)

Module BoundedPQueueFacts.
Import BoundedPQueue.
Section Facts.
Context {T : Type}.
Implicit Types (l : list (Q * T)) (e : Q * T) (q : BoundedPQueue T).

Lemma multimap_insert_perm e l : Permutation (multimap_insert e l) (e :: l).
Proof.
  induction l as [|x l IH]; simpl; [reflexivity|].
  destruct (Qltb (fst e) (fst x)); [reflexivity|].
  rewrite IH. apply perm_swap.
Qed.

Lemma multimap_insert_length e l : length (multimap_insert e l) = S (length l).
Proof. apply (Permutation_length (multimap_insert_perm e l)). Qed.

Lemma multimap_insert_sorted e l : sorted l -> sorted (multimap_insert e l).
Proof.
  unfold sorted. induction 1 as [|x l Hs IH Hx]; simpl.
  - repeat constructor.
  - destruct (Qltb (fst e) (fst x)) eqn:E.
    + apply Qltb_lt in E. constructor; [constructor; assumption|].
      constructor; [lra|].
      eapply List.Forall_impl; [|exact Hx]. simpl. intros y Hy. lra.
    + apply Qltb_ge in E. constructor; [exact IH|].
      apply List.Forall_forall. intros y Hy.
      apply (Permutation_in _ (multimap_insert_perm e l)) in Hy.
      destruct Hy as [<-|Hy]; [exact E|].
      rewrite List.Forall_forall in Hx. apply Hx, Hy.
Qed.

(** An entry that is not below any stored one goes last. *)
Lemma multimap_insert_last e l :
  Forall (fun x => (fst x <= fst e)%Q) l -> multimap_insert e l = l ++ [e].
Proof.
  induction 1 as [|x l Hx _ IH]; simpl; [reflexivity|].
  destruct (Qltb (fst e) (fst x)) eqn:E.
  - apply Qltb_lt in E. lra.
  - now rewrite IH.
Qed.

Lemma sorted_app_inv l e : sorted (l ++ [e]) -> sorted l /\ Forall (fun x => (fst x <= fst e)%Q) l.
Proof.
  unfold sorted. induction l as [|x l IH]; simpl; intros Hs.
  - split; constructor.
  - apply StronglySorted_inv in Hs. destruct Hs as [Hs Hx].
    destruct (IH Hs) as [Hl Hle]. split.
    + constructor; [exact Hl|].
      rewrite Forall_app in Hx. tauto.
    + constructor; [|exact Hle].
      rewrite Forall_app in Hx. destruct Hx as [_ Hx].
      now inversion Hx.
Qed.

Lemma snoc_last l : l <> [] -> forall d, l = removelast l ++ [List.last l d].
Proof. intros Hl d. now apply app_removelast_last. Qed.

(** In ordered entries the last one has the largest priority. *)
Lemma sorted_last_largest l d :
  sorted l -> l <> [] -> is_largest (List.last l d) l.
Proof.
  intros Hs Hl. pose proof (snoc_last l Hl d) as E.
  rewrite E in Hs. apply sorted_app_inv in Hs. destruct Hs as [_ Hle].
  split.
  - rewrite E at 2. apply in_or_app. right. now left.
  - intros x Hx. rewrite E in Hx. apply in_app_or in Hx.
    destruct Hx as [Hx|[<-|[]]]; [|lra].
    rewrite List.Forall_forall in Hle. apply Hle, Hx.
Qed.

Lemma sorted_removelast l : sorted l -> sorted (removelast l).
Proof.
  intros Hs. destruct l as [|x l]; [exact Hs|].
  assert (Hl : x :: l <> []) by discriminate.
  rewrite (snoc_last _ Hl x) in Hs. now apply sorted_app_inv in Hs.
Qed.

Lemma removelast_length l : l <> [] -> S (length (removelast l)) = length l.
Proof.
  intros Hl. destruct l as [|x l]; [congruence|].
  rewrite (snoc_last (x :: l) Hl x) at 2.
  rewrite length_app. simpl. lia.
Qed.
Lemma multimap_insert_nonempty e l : multimap_insert e l <> [].
Proof. destruct l as [|x l]; simpl; [|destruct (Qltb _ _)]; discriminate. Qed.

Lemma enqueue_maxSize q value prio : maxSize (enqueue value prio q) = maxSize q.
Proof. unfold enqueue, maxSize. now destruct (_ <? _). Qed.

Lemma wf_enqueue q value prio : wf q -> wf (enqueue value prio q).
Proof.
  intros [Hs Hn]. unfold wf. rewrite enqueue_maxSize.
  unfold enqueue, size, maxSize in *.
  pose proof (multimap_insert_length (prio, value) (elems q)) as Hlen.
  pose proof (multimap_insert_sorted (prio, value) _ Hs) as Hs1.
  destruct (Nat.ltb_spec (maximumSize q) (length (multimap_insert (prio, value) (elems q))));
    simpl.
  - split; [now apply sorted_removelast|].
    pose proof (removelast_length _ (multimap_insert_nonempty (prio, value) (elems q))).
    lia.
  - split; [exact Hs1 | lia].
Qed.

Lemma wf_dequeueMin q v q' : wf q -> dequeueMin q = Some (v, q') -> wf q'.
Proof.
  intros [Hs Hn]. unfold dequeueMin, wf, size, maxSize in *.
  destruct (elems q) as [|[p x] rest] eqn:E; [discriminate|].
  intros [= <- <-]. simpl in *. split; [|lia].
  now apply StronglySorted_inv in Hs.
Qed.

(** Every state reached from the constructor is ordered and within its
    bound. *)
Lemma reachable_wf q : reachable q -> wf q.
Proof.
  induction 1 as [n|q value prio _ IH|q v q' _ IH Hd].
  - split; [constructor | apply Nat.le_0_l].
  - now apply wf_enqueue.
  - eapply wf_dequeueMin; eassumption.
Qed.

(** C8: enqueue inserts the pair; when the size then exceeds maxSize it
    removes exactly one entry, one of largest priority (the last one); the
    size after enqueue is at most maxSize. *)
Theorem enqueue_inserts_then_evicts_largest q value prio :
  reachable q ->
  let inserted := multimap_insert (prio, value) (elems q) in
  Permutation inserted ((prio, value) :: elems q) /\
  (length inserted <= maxSize q -> elems (enqueue value prio q) = inserted) /\
  (maxSize q < length inserted ->
     exists e, is_largest e inserted /\ inserted = elems (enqueue value prio q) ++ [e]) /\
  size (enqueue value prio q) <= maxSize (enqueue value prio q).
Proof.
  intros Hr inserted. pose proof (reachable_wf q Hr) as Hwf.
  split; [apply multimap_insert_perm|].
  split; [|split].
  - intros Hle. unfold enqueue. fold inserted. unfold maxSize in Hle.
    destruct (Nat.ltb_spec (maximumSize q) (length inserted)); [lia|reflexivity].
  - intros Hlt. unfold enqueue. fold inserted. unfold maxSize in Hlt.
    destruct (Nat.ltb_spec (maximumSize q) (length inserted)); [|lia]. simpl.
    assert (Hne : inserted <> []) by apply multimap_insert_nonempty.
    exists (List.last inserted (prio, value)). split.
    + apply sorted_last_largest; [|exact Hne].
      apply multimap_insert_sorted, Hwf.
    + now apply snoc_last.
  - apply (wf_enqueue q value prio Hwf).
Qed.

(** C10: on a full queue, enqueueing a priority that is not below worst()
    puts the new entry last and then evicts it: the entries are unchanged. *)
Theorem enqueue_full_not_better_unchanged q value prio w :
  reachable q -> size q = maxSize q -> 0 < maxSize q ->
  worst q = Finite w -> (w <= prio)%Q ->
  multimap_insert (prio, value) (elems q) = elems q ++ [(prio, value)] /\
  elems (enqueue value prio q) = elems q.
Proof.
  intros Hr Hfull Hpos Hw Hle.
  destruct (reachable_wf q Hr) as [Hs _].
  assert (Hall : Forall (fun x => (fst x <= prio)%Q) (elems q)).
  { unfold worst in Hw. destruct (elems q) as [|e rest] eqn:E; [discriminate|].
    injection Hw as Hw.
    assert (Hne : e :: rest <> []) by discriminate.
    destruct (sorted_last_largest (e :: rest) e Hs Hne) as [_ Hmax].
    apply List.Forall_forall. intros x Hx. specialize (Hmax x Hx).
    assert (El : List.last (e :: rest) e = List.last rest e)
      by (destruct rest; reflexivity).
    rewrite El, Hw in Hmax. simpl. lra. }
  pose proof (multimap_insert_last (prio, value) (elems q) Hall) as Hins.
  split; [exact Hins|].
  unfold enqueue. rewrite Hins, length_app. simpl.
  unfold size, maxSize in *.
  destruct (Nat.ltb_spec (maximumSize q) (length (elems q) + 1)); [|lia].
  simpl. now rewrite removelast_last.
Qed.
End Facts.
End BoundedPQueueFacts.

(** ** Points *)

Lemma Point_eqb_refl N (p : Point) : Point_eqb N p p = true.
Proof.
  unfold Point_eqb. apply forallb_forall. intros i _.
  apply Qeq_bool_iff. reflexivity.
Qed.

Lemma Point_eqb_coord N (p q : Point) :
  Point_eqb N p q = true <-> forall i, i < N -> (coord p i == coord q i)%Q.
Proof.
  unfold Point_eqb. rewrite forallb_forall. split.
  - intros H i Hi. apply Qeq_bool_iff, H, in_seq. lia.
  - intros H i Hi. apply Qeq_bool_iff, H. apply in_seq in Hi. lia.
Qed.

Lemma Point_eqb_sym N (p q : Point) : Point_eqb N p q = Point_eqb N q p.
Proof.
  destruct (Point_eqb N p q) eqn:E1, (Point_eqb N q p) eqn:E2; try reflexivity.
  - rewrite Point_eqb_coord in E1.
    assert (Point_eqb N q p = true) as E; [|congruence].
    apply Point_eqb_coord. intros i Hi. symmetry. now apply E1.
  - rewrite Point_eqb_coord in E2.
    assert (Point_eqb N p q = true) as E; [|congruence].
    apply Point_eqb_coord. intros i Hi. symmetry. now apply E2.
Qed.

Lemma Point_eqb_trans N (p q r : Point) :
  Point_eqb N p q = true -> Point_eqb N q r = true -> Point_eqb N p r = true.
Proof.
  rewrite !Point_eqb_coord. intros H1 H2 i Hi.
  rewrite (H1 i Hi). now apply H2.
Qed.

(** ** The tree, value layer *)

Module KDFacts.
Import KD.
Section Facts.
Context {ElemType : Type} (N : nat).
Implicit Types (t l r cl cr : Node ElemType) (T : KDTree ElemType)
  (pt p cp : Point) (value v cv : ElemType).

Lemma findNode_NULL t pt : findNode N t pt = NULL -> t = NULL.
Proof.
  induction t as [|p l IHl r IHr lvl v]; [reflexivity|]. simpl.
  destruct (Point_eqb N p pt); [discriminate|].
  destruct (Qltb _ _).
  - destruct (is_NULL l) eqn:E; [discriminate|]. intros F.
    apply IHl in F. now subst.
  - destruct (is_NULL r) eqn:E; [discriminate|]. intros F.
    apply IHr in F. now subst.
Qed.

Lemma update_target_is_NULL (f : Node ElemType -> Node ElemType) t pt :
  (forall n, is_NULL n = false -> is_NULL (f n) = false) ->
  is_NULL t = false -> is_NULL (update_target N f t pt) = false.
Proof.
  intros Hf Ht. destruct t as [|p l r lvl v]; [discriminate|]. simpl.
  destruct (Point_eqb N p pt); [now apply Hf|].
  destruct (Qltb _ _).
  - destruct (is_NULL l); [now apply Hf | reflexivity].
  - destruct (is_NULL r); [now apply Hf | reflexivity].
Qed.

Lemma set_value_is_NULL value n : is_NULL n = false -> is_NULL (set_value value n) = false.
Proof. now destruct n. Qed.

Lemma attach_is_NULL pt value n : is_NULL n = false -> is_NULL (attach N pt value n) = false.
Proof.
  destruct n as [|p l r lvl v]; [discriminate|]. intros _. simpl.
  now destruct (Qltb _ _).
Qed.

(** After the label of the node holding [pt] is overwritten, [findNode]
    stops at the same node and sees the new label. *)
Lemma findNode_set_value t pt value p l r lvl v :
  findNode N t pt = mkNode p l r lvl v -> Point_eqb N p pt = true ->
  findNode N (update_target N (set_value value) t pt) pt = mkNode p l r lvl value.
Proof.
  induction t as [|cp cl IHl cr IHr clvl cv]; [discriminate|]. simpl.
  destruct (Point_eqb N cp pt) eqn:E.
  - intros [= -> -> -> -> ->] _. simpl. now rewrite E.
  - destruct (Qltb (coord pt (clvl mod N)) (coord cp (clvl mod N))) eqn:C.
    + destruct (is_NULL cl) eqn:El.
      * intros [= -> -> -> -> ->] Hp. congruence.
      * intros Hf Hp. simpl. rewrite E, C.
        rewrite update_target_is_NULL; auto using set_value_is_NULL.
    + destruct (is_NULL cr) eqn:Er.
      * intros [= -> -> -> -> ->] Hp. congruence.
      * intros Hf Hp. simpl. rewrite E, C.
        rewrite update_target_is_NULL; auto using set_value_is_NULL.
Qed.

(** After a node for [pt] is attached below the node [findNode] returned,
    [findNode] reaches the new node. *)
Lemma findNode_attach t pt value p l r lvl v :
  findNode N t pt = mkNode p l r lvl v -> Point_eqb N p pt = false ->
  findNode N (update_target N (attach N pt value) t pt) pt
  = mkNode pt NULL NULL (lvl + 1) value.
Proof.
  induction t as [|cp cl IHl cr IHr clvl cv]; [discriminate|]. simpl.
  destruct (Point_eqb N cp pt) eqn:E.
  - intros [= -> -> -> -> ->] Hp. congruence.
  - destruct (Qltb (coord pt (clvl mod N)) (coord cp (clvl mod N))) eqn:C.
    + destruct (is_NULL cl) eqn:El.
      * intros [= -> -> -> -> ->] Hp. simpl. rewrite C. simpl.
        now rewrite Hp, Point_eqb_refl.
      * intros Hf Hp. simpl. rewrite E, C.
        rewrite update_target_is_NULL; auto using attach_is_NULL.
    + destruct (is_NULL cr) eqn:Er.
      * intros [= -> -> -> -> ->] Hp. simpl. rewrite C. simpl.
        now rewrite Hp, Point_eqb_refl.
      * intros Hf Hp. simpl. rewrite E, C.
        rewrite update_target_is_NULL; auto using attach_is_NULL.
Qed.

(** After [insert T pt value], [findNode] ends at a node equal to [pt]
    that carries [value]. *)
Lemma findNode_insert T pt value :
  exists p l r lvl,
    findNode N (root_ (insert N T pt value)) pt = mkNode p l r lvl value /\
    Point_eqb N p pt = true.
Proof.
  unfold insert. destruct (findNode N (root_ T) pt) as [|p l r lvl v] eqn:F.
  - exists pt, NULL, NULL, 0. simpl. rewrite Point_eqb_refl. auto.
  - destruct (Point_eqb N p pt) eqn:E; simpl.
    + exists p, l, r, lvl. split; [|exact E].
      eapply findNode_set_value; eassumption.
    + exists pt, NULL, NULL, (lvl + 1). split; [|apply Point_eqb_refl].
      eapply findNode_attach; eassumption.
Qed.

(** The three cases of [insert]. *)
Lemma insert_cases T pt value :
  insert N T pt value =
  if is_NULL (root_ T)
  then {| root_ := mkNode pt NULL NULL 0 value; size_ := 1 |}
  else if found N (root_ T) pt
  then {| root_ := update_target N (set_value value) (root_ T) pt; size_ := size_ T |}
  else {| root_ := update_target N (attach N pt value) (root_ T) pt;
          size_ := size_ T + 1 |}.
Proof.
  unfold insert, found.
  destruct (findNode N (root_ T) pt) as [|p l r lvl v] eqn:F.
  - apply findNode_NULL in F. now rewrite F.
  - destruct (root_ T); [discriminate|]. reflexivity.
Qed.

(** C5: inserting the same point twice leaves the size as after the first
    insert, and [at] then returns the second label. *)
Theorem insert_twice T pt v1 v2 :
  size (insert N (insert N T pt v1) pt v2) = size (insert N T pt v1) /\
  at_ N (insert N (insert N T pt v1) pt v2) pt = inr v2.
Proof.
  destruct (findNode_insert T pt v1) as (p & l & r & lvl & F1 & E1).
  set (T1 := insert N T pt v1) in *.
  assert (E2 : insert N T1 pt v2 =
               {| root_ := update_target N (set_value v2) (root_ T1) pt;
                  size_ := size_ T1 |}).
  { unfold insert at 1. now rewrite F1, E1. }
  rewrite E2. split; [reflexivity|].
  unfold at_. simpl.
  rewrite (findNode_set_value _ _ v2 _ _ _ _ _ F1 E1).
  unfold Point_neqb. now rewrite E1.
Qed.

(** *** What [insert] does to the stored points *)

Lemma points_mkNode p l r lvl v :
  points (mkNode p l r lvl v) = p :: points l ++ points r.
Proof. unfold points. simpl. now rewrite map_app. Qed.

Lemma points_NULL t : is_NULL t = true -> points t = [].
Proof. now destruct t. Qed.

Lemma points_set_value t pt value :
  points (update_target N (set_value value) t pt) = points t.
Proof.
  induction t as [|cp cl IHl cr IHr clvl cv]; [reflexivity|]. simpl.
  destruct (Point_eqb N cp pt); [reflexivity|].
  destruct (Qltb _ _).
  - destruct (is_NULL cl); [reflexivity|].
    rewrite !points_mkNode. now rewrite IHl.
  - destruct (is_NULL cr); [reflexivity|].
    rewrite !points_mkNode. now rewrite IHr.
Qed.

Lemma found_mkNode cp cl cr clvl cv pt :
  found N (mkNode cp cl cr clvl cv) pt =
  if Point_eqb N cp pt then true
  else if Qltb (coord pt (clvl mod N)) (coord cp (clvl mod N))
       then if is_NULL cl then false else found N cl pt
       else if is_NULL cr then false else found N cr pt.
Proof.
  unfold found. simpl. destruct (Point_eqb N cp pt) eqn:E; [exact E|].
  destruct (Qltb _ _).
  - destruct (is_NULL cl); [exact E | reflexivity].
  - destruct (is_NULL cr); [exact E | reflexivity].
Qed.

Lemma found_NULL pt : found N (@NULL ElemType) pt = false.
Proof. reflexivity. Qed.

(** A new node adds its point and nothing else. *)
Lemma points_attach t pt value :
  found N t pt = false -> is_NULL t = false ->
  Permutation (points (update_target N (attach N pt value) t pt)) (pt :: points t).
Proof.
  induction t as [|cp cl IHl cr IHr clvl cv]; [discriminate|].
  rewrite found_mkNode. simpl. intros Hf _.
  destruct (Point_eqb N cp pt); [discriminate|].
  destruct (Qltb (coord pt (clvl mod N)) (coord cp (clvl mod N))) eqn:C.
  - destruct (is_NULL cl) eqn:El.
    + simpl. rewrite ?C. rewrite !points_mkNode, (points_NULL cl El).
      simpl. apply perm_swap.
    + rewrite !points_mkNode. rewrite (IHl Hf eq_refl). simpl. apply perm_swap.
  - destruct (is_NULL cr) eqn:Er.
    + simpl. rewrite ?C. rewrite !points_mkNode, (points_NULL cr Er).
      simpl. rewrite app_nil_r.
      change (Permutation (cp :: points cl ++ [pt]) ([pt] ++ cp :: points cl)).
      rewrite (Permutation_app_comm [pt]). reflexivity.
    + rewrite !points_mkNode. rewrite (IHr Hf eq_refl).
      rewrite perm_swap. apply perm_skip.
      symmetry. apply Permutation_middle.
Qed.

(** *** The axis invariant *)

Lemma axis_invariantb_spec t : axis_invariantb N t = true <-> axis_invariant N t.
Proof.
  induction t as [|p l IHl r IHr lvl v]; simpl; [tauto|].
  rewrite !andb_true_iff, !forallb_forall, !List.Forall_forall, IHl, IHr.
  split.
  - intros [[[H1 H2] H3] H4]. repeat split; auto.
    + intros x Hx. now apply Qltb_lt, H1.
    + intros x Hx. now apply Qle_bool_iff, H2.
  - intros (H1 & H2 & H3 & H4). repeat split; auto.
    + intros x Hx. now apply Qltb_lt, H1.
    + intros x Hx. now apply Qle_bool_iff, H2.
Qed.

Lemma axis_invariant_set_value t pt value :
  axis_invariant N t -> axis_invariant N (update_target N (set_value value) t pt).
Proof.
  induction t as [|cp cl IHl cr IHr clvl cv]; [trivial|]. simpl.
  intros (H1 & H2 & H3 & H4).
  destruct (Point_eqb N cp pt); [simpl; auto|].
  destruct (Qltb _ _).
  - destruct (is_NULL cl); simpl; [auto|].
    rewrite points_set_value. auto.
  - destruct (is_NULL cr); simpl; [auto|].
    rewrite points_set_value. auto.
Qed.

Lemma axis_invariant_attach t pt value :
  found N t pt = false -> axis_invariant N t ->
  axis_invariant N (update_target N (attach N pt value) t pt).
Proof.
  induction t as [|cp cl IHl cr IHr clvl cv]; [trivial|].
  rewrite found_mkNode. simpl. intros Hf (H1 & H2 & H3 & H4).
  destruct (Point_eqb N cp pt); [discriminate|].
  destruct (Qltb (coord pt (clvl mod N)) (coord cp (clvl mod N))) eqn:C.
  - apply Qltb_lt in C. destruct (is_NULL cl) eqn:El.
    + simpl. repeat split; auto. unfold points. simpl. auto.
    + simpl. repeat split; auto.
      eapply Permutation_Forall; [symmetry; now apply points_attach|].
      constructor; assumption.
  - apply Qltb_ge in C. destruct (is_NULL cr) eqn:Er.
    + simpl. repeat split; auto. unfold points. simpl. auto.
    + simpl. repeat split; auto.
      eapply Permutation_Forall; [symmetry; now apply points_attach|].
      constructor; assumption.
Qed.

(** [insert] keeps the axis invariant. *)
Lemma axis_invariant_insert T pt value :
  axis_invariant N (root_ T) -> axis_invariant N (root_ (insert N T pt value)).
Proof.
  intros Hinv. unfold insert.
  destruct (findNode N (root_ T) pt) as [|p l r lvl v] eqn:F.
  - simpl. repeat split; constructor.
  - destruct (Point_eqb N p pt) eqn:E; simpl.
    + now apply axis_invariant_set_value.
    + apply axis_invariant_attach; [|exact Hinv].
      unfold found. now rewrite F.
Qed.

(** Under the axis invariant [findNode] reaches every stored point. *)
Lemma found_stored t pt :
  0 < N -> axis_invariant N t -> stored N pt t -> found N t pt = true.
Proof.
  intros HN. induction t as [|cp cl IHl cr IHr clvl cv].
  - intros _ (p & [] & _).
  - simpl. intros (H1 & H2 & H3 & H4) (p & Hin & Hp).
    rewrite found_mkNode. destruct (Point_eqb N cp pt) eqn:E; [reflexivity|].
    rewrite points_mkNode in Hin.
    assert (Ha : clvl mod N < N) by (apply Nat.mod_upper_bound; lia).
    pose proof (proj1 (Point_eqb_coord N p pt) Hp _ Ha) as Hc.
    destruct Hin as [->|Hin]; [congruence|].
    apply in_app_or in Hin. destruct Hin as [Hin|Hin].
    + rewrite List.Forall_forall in H1. specialize (H1 p Hin).
      destruct (Qltb _ _) eqn:C; [|apply Qltb_ge in C; lra].
      destruct cl; [destruct Hin|]. simpl.
      apply IHl; [exact H3|]. exists p. auto.
    + rewrite List.Forall_forall in H2. specialize (H2 p Hin).
      destruct (Qltb _ _) eqn:C; [apply Qltb_lt in C; lra|].
      destruct cr; [destruct Hin|]. simpl.
      apply IHr; [exact H4|]. exists p. auto.
Qed.

Lemma found_stored_inv t pt : found N t pt = true -> stored N pt t.
Proof.
  induction t as [|cp cl IHl cr IHr clvl cv]; [discriminate|].
  rewrite found_mkNode. unfold stored. rewrite points_mkNode.
  destruct (Point_eqb N cp pt) eqn:E.
  - intros _. exists cp. split; [now left | exact E].
  - destruct (Qltb _ _).
    + destruct (is_NULL cl); [discriminate|]. intros Hf.
      destruct (IHl Hf) as (p & Hin & Hp). exists p. split; [|exact Hp].
      right. apply in_or_app. now left.
    + destruct (is_NULL cr); [discriminate|]. intros Hf.
      destruct (IHr Hf) as (p & Hin & Hp). exists p. split; [|exact Hp].
      right. apply in_or_app. now right.
Qed.

(** *** No two nodes with equal points *)

Lemma distinct_pointsb_spec (ps : list Point) :
  distinct_pointsb N ps = true <-> distinct_points N ps.
Proof.
  induction ps as [|p ps IH]; simpl; [tauto|].
  rewrite andb_true_iff, forallb_forall, List.Forall_forall, IH.
  split; intros [H1 H2]; split; auto; intros x Hx.
  - now apply negb_true_iff, H1.
  - now apply negb_true_iff, H1.
Qed.

Lemma distinct_points_perm (ps qs : list Point) :
  Permutation ps qs -> distinct_points N ps -> distinct_points N qs.
Proof.
  induction 1 as [|x ps qs Hp IH|x y ps|ps qs rs _ IH1 _ IH2]; simpl.
  - trivial.
  - intros [H1 H2]. split; [|auto]. eapply Permutation_Forall; eassumption.
  - intros [H1 [H2 H3]]. apply Forall_cons in H1. destruct H1 as [Hyx H1].
    repeat split; auto. constructor; [|exact H2].
    now rewrite Point_eqb_sym.
  - auto.
Qed.

Lemma distinct_points_insert T pt value :
  0 < N -> axis_invariant N (root_ T) ->
  distinct_points N (points (root_ T)) ->
  distinct_points N (points (root_ (insert N T pt value))).
Proof.
  intros HN Hinv Hd. unfold insert.
  destruct (findNode N (root_ T) pt) as [|p l r lvl v] eqn:F.
  - simpl. split; constructor.
  - destruct (Point_eqb N p pt) eqn:E; simpl.
    + now rewrite points_set_value.
    + assert (Hf : found N (root_ T) pt = false) by (unfold found; now rewrite F).
      assert (Hn : is_NULL (root_ T) = false).
      { destruct (root_ T); [discriminate | reflexivity]. }
      eapply distinct_points_perm; [symmetry; now apply points_attach|].
      simpl. split; [|exact Hd].
      apply List.Forall_forall. intros x Hx.
      destruct (Point_eqb N pt x) eqn:Ex; [|reflexivity].
      rewrite <- Hf. symmetry. apply found_stored; auto.
      exists x. split; [exact Hx|]. now rewrite Point_eqb_sym.
Qed.

(** [size_] counts the nodes, and [insert] keeps it so. *)
Lemma size_insert T pt value :
  size_ T = length (points (root_ T)) ->
  size_ (insert N T pt value) = length (points (root_ (insert N T pt value))).
Proof.
  intros Hs. unfold insert.
  destruct (findNode N (root_ T) pt) as [|p l r lvl v] eqn:F; [reflexivity|].
  destruct (Point_eqb N p pt) eqn:E; simpl.
  - now rewrite points_set_value.
  - assert (Hf : found N (root_ T) pt = false) by (unfold found; now rewrite F).
    assert (Hn : is_NULL (root_ T) = false).
    { destruct (root_ T); [discriminate | reflexivity]. }
    rewrite (Permutation_length (points_attach _ _ value Hf Hn)). simpl. lia.
Qed.

Lemma tree_invariant_inserts T0 ops :
  0 < N -> tree_invariant N T0 -> tree_invariant N (inserts N T0 ops).
Proof.
  intros HN. revert T0. induction ops as [|[pt value] ops IH]; intros T0 Hinv.
  - exact Hinv.
  - simpl. apply IH. destruct Hinv as (H1 & H2 & H3). repeat split.
    + now apply axis_invariant_insert.
    + now apply distinct_points_insert.
    + now apply size_insert.
Qed.

(** *** buildTree keeps the pairs it is given *)

Lemma walk_left_le axis (range : list (Point * ElemType)) mid :
  walk_left axis range mid <= mid.
Proof.
  induction mid as [|m IH]; simpl; [lia|].
  destruct (range !! m); [|lia].
  destruct (range !! S m); [|lia].
  destruct (Qeq_bool _ _); lia.
Qed.

Lemma buildTree_fuel_S nth_element fuel (range : list (Point * ElemType)) currLevel :
  range <> [] ->
  buildTree_fuel N nth_element (S fuel) range currLevel =
  let axis := currLevel mod N in
  let range1 := nth_element (cmp axis) range (length range / 2) in
  let mid := walk_left axis range1 (length range / 2) in
  match range1 !! mid with
  | None => NULL
  | Some m =>
      mkNode (fst m)
             (buildTree_fuel N nth_element fuel (take mid range1) (currLevel + 1))
             (buildTree_fuel N nth_element fuel (drop (mid + 1) range1) (currLevel + 1))
             currLevel (snd m)
  end.
Proof. destruct range; [congruence | reflexivity]. Qed.

Lemma buildTree_fuel_perm nth_element :
  nth_element_ok nth_element ->
  forall fuel (range : list (Point * ElemType)) currLevel,
    length range <= fuel ->
    Permutation (bindings (buildTree_fuel N nth_element fuel range currLevel)) range.
Proof.
  intros Hok. induction fuel as [|fuel IH]; intros range currLevel Hlen.
  - destruct range; [reflexivity | simpl in Hlen; lia].
  - destruct (decide (range = [])) as [->|Hne]; [reflexivity|].
    assert (Hpos : 0 < length range) by (destruct range; [congruence | simpl; lia]).
    rewrite buildTree_fuel_S by exact Hne. cbv zeta.
    set (mid0 := length range / 2).
    assert (Hmid0 : mid0 < length range) by (apply Nat.div_lt; lia).
    destruct (Hok (currLevel mod N) range mid0 Hmid0) as [Hperm _].
    set (range1 := nth_element (cmp (currLevel mod N)) range mid0) in *.
    pose proof (Permutation_length Hperm) as Hl1.
    pose proof (walk_left_le (currLevel mod N) range1 mid0) as Hw.
    set (mid := walk_left (currLevel mod N) range1 mid0) in *.
    destruct (range1 !! mid) as [m|] eqn:Em.
    + simpl. rewrite !IH.
      * rewrite Hperm. rewrite <- (take_drop_middle range1 mid m Em) at 3.
        replace (mid + 1) with (S mid) by lia. destruct m as [mp mv]. simpl.
        apply Permutation_middle.
      * rewrite length_drop. lia.
      * rewrite length_take. lia.
    + apply lookup_ge_None in Em. lia.
Qed.

(** Bulk construction makes one node for each pair of the collection. *)
Lemma KDTree_build_perm nth_element (pts : list (Point * ElemType)) :
  nth_element_ok nth_element ->
  Permutation (bindings (root_ (KDTree_build N nth_element pts))) pts.
Proof. intros Hok. now apply buildTree_fuel_perm. Qed.

(** C4 (amended): bulk construction makes one node per pair, so its nodes
    hold pairwise different points exactly when the collection does; and from a
    tree that satisfies the invariant of the class (the empty tree does), no
    sequence of inserts produces two nodes with equal points: inserting a
    point equal to a stored one keeps the nodes and the size and overwrites
    the label. *)
Theorem inserts_never_duplicate nth_element (pts : list (Point * ElemType)) T0 ops :
  nth_element_ok nth_element ->
  0 < N -> tree_invariant N T0 ->
  (distinct_points N (points (root_ (KDTree_build N nth_element pts)))
   <-> distinct_points N (map fst pts)) /\
  let T := inserts N T0 ops in
  distinct_points N (points (root_ T)) /\
  forall pt value, stored N pt (root_ T) ->
    size (insert N T pt value) = size T /\
    points (root_ (insert N T pt value)) = points (root_ T) /\
    at_ N (insert N T pt value) pt = inr value.
Proof.
  intros Hok HN Hinv. split.
  { assert (Hp : Permutation (points (root_ (KDTree_build N nth_element pts)))
                             (map fst pts)).
    { unfold points. apply Permutation_map. now apply KDTree_build_perm. }
    split; apply distinct_points_perm; [exact Hp | symmetry; exact Hp]. }
  intros T.
  destruct (tree_invariant_inserts T0 ops HN Hinv) as (H1 & H2 & H3).
  fold T in H1, H2, H3. split; [exact H2|].
  intros pt value Hst.
  pose proof (found_stored _ _ HN H1 Hst) as Hf.
  destruct (findNode_insert T pt value) as (p & l & r & lvl & F & E).
  assert (Hat : at_ N (insert N T pt value) pt = inr value).
  { unfold at_. rewrite F. unfold Point_neqb. now rewrite E. }
  unfold found in Hf. unfold insert in *.
  destruct (findNode N (root_ T) pt) as [|p0 l0 r0 lvl0 v0]; [discriminate|].
  rewrite Hf in *. simpl. rewrite points_set_value. auto.
Qed.

(** *** [contains] and [at] under the axis invariant *)

Lemma contains_found T pt : contains N T pt = found N (root_ T) pt.
Proof. reflexivity. Qed.

Lemma at_found T pt :
  at_ N T pt = inl out_of_range <-> found N (root_ T) pt = false.
Proof.
  unfold at_, found, Point_neqb.
  destruct (findNode N (root_ T) pt) as [|p l r lvl v]; [tauto|].
  destruct (Point_eqb N p pt); simpl; split; congruence.
Qed.

Lemma contains_stored T pt :
  0 < N -> axis_invariant N (root_ T) -> stored N pt (root_ T) ->
  contains N T pt = true.
Proof. intros. rewrite contains_found. now apply found_stored. Qed.

Lemma at_raises_iff T pt :
  0 < N -> axis_invariant N (root_ T) ->
  at_ N T pt = inl out_of_range <-> ~ stored N pt (root_ T).
Proof.
  intros HN Hinv. rewrite at_found. split.
  - intros Hf Hst. rewrite (found_stored _ _ HN Hinv Hst) in Hf. discriminate.
  - intros Hn. destruct (found N (root_ T) pt) eqn:E; [|reflexivity].
    exfalso. now apply Hn, found_stored_inv.
Qed.

Lemma contains_empty pt : contains N (@KDTree_empty ElemType) pt = false.
Proof. reflexivity. Qed.

Lemma at_empty pt : at_ N (@KDTree_empty ElemType) pt = inl out_of_range.
Proof. reflexivity. Qed.

Lemma kNNValue_empty `{EqDecision ElemType} `{Inhabited ElemType} key k :
  kNNValue N (@KDTree_empty ElemType) key k = inhabitant.
Proof. reflexivity. Qed.

(** *** The comparison of [buildTree] and the lazy [nth_element] *)

Lemma cmp_le_spec axis (x y : Point * ElemType) :
  cmp_le axis x y <-> (coord (fst x) axis <= coord (fst y) axis)%Q.
Proof. unfold cmp_le, cmp. apply Qltb_ge. Qed.

Lemma insert_sorted_perm lt x (l : list (Point * ElemType)) :
  Permutation (insert_sorted lt x l) (x :: l).
Proof.
  induction l as [|y l IH]; simpl; [reflexivity|].
  destruct (lt x y); [reflexivity|]. rewrite IH. apply perm_swap.
Qed.

Lemma insertion_sort_perm lt (l : list (Point * ElemType)) :
  Permutation (insertion_sort lt l) l.
Proof.
  induction l as [|x l IH]; simpl; [reflexivity|].
  unfold insertion_sort in *. simpl. rewrite insert_sorted_perm. now constructor.
Qed.

Lemma insert_sorted_sorted axis x (l : list (Point * ElemType)) :
  StronglySorted (cmp_le axis) l ->
  StronglySorted (cmp_le axis) (insert_sorted (cmp axis) x l).
Proof.
  induction 1 as [|y l Hs IH Hy]; simpl; [repeat constructor|].
  destruct (cmp axis x y) eqn:E.
  - constructor; [now constructor|].
    unfold cmp in E. apply Qltb_lt in E.
    constructor; [apply cmp_le_spec; lra|].
    eapply List.Forall_impl; [|exact Hy]. intros z Hz.
    apply cmp_le_spec in Hz. apply cmp_le_spec. lra.
  - constructor; [exact IH|].
    eapply Permutation_Forall; [symmetry; apply insert_sorted_perm|].
    constructor; [exact E | exact Hy].
Qed.

Lemma insertion_sort_sorted axis (l : list (Point * ElemType)) :
  StronglySorted (cmp_le axis) (insertion_sort (cmp axis) l).
Proof.
  induction l as [|x l IH]; [constructor|].
  unfold insertion_sort in *. simpl. now apply insert_sorted_sorted.
Qed.

Lemma StronglySorted_lookup {A} (R : A -> A -> Prop) (l : list A) i j x y :
  StronglySorted R l -> i < j -> l !! i = Some x -> l !! j = Some y -> R x y.
Proof.
  intros Hs. revert i j. induction Hs as [|a l Hs IH Ha]; intros i j Hij Hi Hj.
  - discriminate.
  - destruct j as [|j]; [lia|]. destruct i as [|i].
    + injection Hi as <-. simpl in Hj.
      rewrite List.Forall_forall in Ha. apply Ha.
      apply list_elem_of_In. eapply list_elem_of_lookup_2. exact Hj.
    + simpl in Hi, Hj. apply (IH i j); [lia|assumption..].
Qed.

Lemma arranged_spec lt (l : list (Point * ElemType)) n :
  arranged lt l n = true ->
  (forall i j x y, i < n -> n <= j -> l !! i = Some x -> l !! j = Some y -> lt y x = false) /\
  (forall j m y, n < j -> l !! n = Some m -> l !! j = Some y -> lt y m = false).
Proof.
  unfold arranged. rewrite andb_true_iff, forallb_forall. intros [H1 H2]. split.
  - intros i j x y Hi Hj Hx Hy.
    assert (Hx' : In x (take n l)).
    { apply list_elem_of_In. apply list_elem_of_lookup. exists i.
      now rewrite lookup_take_lt. }
    specialize (H1 x Hx'). rewrite forallb_forall in H1.
    apply negb_true_iff, H1.
    apply list_elem_of_In. apply list_elem_of_lookup. exists (j - n).
    rewrite lookup_drop. now replace (n + (j - n)) with j by lia.
  - intros j m y Hj Hm Hy. rewrite Hm in H2. rewrite forallb_forall in H2.
    apply negb_true_iff, H2.
    apply list_elem_of_In. apply list_elem_of_lookup. exists (j - (n + 1)).
    rewrite lookup_drop. now replace (n + 1 + (j - (n + 1))) with j by lia.
Qed.

(** The lazy [nth_element] meets what the standard guarantees. *)
Lemma nth_element_lazy_ok : nth_element_ok (@nth_element_lazy ElemType).
Proof.
  intros axis l n Hn. unfold nth_element_lazy.
  destruct (arranged (cmp axis) l n) eqn:E.
  - split; [reflexivity|]. now apply arranged_spec.
  - split; [symmetry; apply insertion_sort_perm|].
    pose proof (insertion_sort_sorted axis l) as Hs. split.
    + intros i j x y Hi Hj Hx Hy.
      apply (StronglySorted_lookup _ _ i j x y Hs); [lia|assumption..].
    + intros j m y Hj Hm Hy.
      apply (StronglySorted_lookup _ _ n j m y Hs); [lia|assumption..].
Qed.

(** *** The search *)

Lemma nearestNeighborTrace_fst t key (q : BoundedPQueue ElemType) :
  fst (nearestNeighborTrace N t key q) = nearestNeighborRecurse N t key q.
Proof.
  revert q. induction t as [|p l IHl r IHr lvl v]; intros q; [reflexivity|].
  simpl. destruct (Qltb (coord key (lvl mod N)) (coord p (lvl mod N)));
    rewrite ?IHl, ?IHr;
    match goal with |- context [if ?c then _ else _] => destruct c end;
    simpl; rewrite ?IHl, ?IHr; reflexivity.
Qed.

Lemma nearestNeighborTrace_calls t key (q : BoundedPQueue ElemType) :
  exists rest, snd (nearestNeighborTrace N t key q) = t :: rest.
Proof.
  destruct t as [|p l r lvl v]; simpl; [now exists []|].
  match goal with |- context [if ?c then _ else _] => destruct c end;
    simpl; eauto.
Qed.

Lemma lt_priority_below_worst x (q : BoundedPQueue ElemType) :
  lt_priority x (BoundedPQueue.worst q) = true <-> below_worst x q.
Proof.
  unfold below_worst, lt_priority. destruct (BoundedPQueue.worst q); [|tauto].
  apply Qltb_lt.
Qed.

(** C2: on return from the near child, the far child is visited exactly
    when the queue holds fewer than maxSize entries or the gap on the
    splitting axis is strictly below worst(); with a full queue and a gap
    equal to worst() it is not visited. *)
Theorem far_child_explored_iff currPoint l r currLevel value key pQueue :
  let node := mkNode currPoint l r currLevel value in
  let a := currLevel mod N in
  let isLeftTree := Qltb (coord key a) (coord currPoint a) in
  let near := if isLeftTree then l else r in
  let far := if isLeftTree then r else l in
  let q1 := BoundedPQueue.enqueue value (Distance N currPoint key) pQueue in
  let q2 := nearestNeighborRecurse N near key q1 in
  let gap := Qabs (coord key a - coord currPoint a) in
  let calls := snd (nearestNeighborTrace N node key pQueue) in
  let calls_near := snd (nearestNeighborTrace N near key q1) in
  let calls_far := snd (nearestNeighborTrace N far key q2) in
  let explore :=
    BoundedPQueue.size q2 < BoundedPQueue.maxSize q2 \/ below_worst gap q2 in
  (explore <-> calls = node :: calls_near ++ calls_far) /\
  (~ explore <-> calls = node :: calls_near) /\
  (explore -> nearestNeighborRecurse N node key pQueue
              = nearestNeighborRecurse N far key q2) /\
  (~ explore -> nearestNeighborRecurse N node key pQueue = q2) /\
  (forall w, BoundedPQueue.size q2 = BoundedPQueue.maxSize q2 ->
             BoundedPQueue.worst q2 = Finite w -> (gap == w)%Q -> ~ explore).
Proof.
  intros node a isLeftTree near far q1 q2 gap calls calls_near calls_far explore.
  set (c := (BoundedPQueue.size q2 <? BoundedPQueue.maxSize q2)
            || lt_priority gap (BoundedPQueue.worst q2)).
  assert (Hc : c = true <-> explore).
  { unfold c, explore. rewrite orb_true_iff, Nat.ltb_lt.
    now rewrite lt_priority_below_worst. }
  assert (Hcalls : calls = if c then node :: calls_near ++ calls_far
                           else node :: calls_near).
  { unfold calls, calls_near, calls_far, c, q2, gap, near, far, q1, node, isLeftTree, a.
    simpl. destruct (Qltb (coord key (currLevel mod N)) (coord currPoint (currLevel mod N)));
      rewrite !nearestNeighborTrace_fst;
      match goal with |- context [if ?c then _ else _] => destruct c end;
      reflexivity. }
  assert (Hres : nearestNeighborRecurse N node key pQueue
                 = if c then nearestNeighborRecurse N far key q2 else q2).
  { unfold c, q2, gap, near, far, q1, node, isLeftTree, a.
    simpl. destruct (Qltb (coord key (currLevel mod N)) (coord currPoint (currLevel mod N)));
      reflexivity. }
  assert (Hfar : calls_far <> []).
  { unfold calls_far. destruct (nearestNeighborTrace_calls far key q2) as [rest ->].
    discriminate. }
  assert (Hdiff : node :: calls_near ++ calls_far <> node :: calls_near).
  { intros E. injection E as E. rewrite <- (app_nil_r calls_near) in E at 2.
    apply app_inv_head in E. contradiction. }
  assert (Htie : forall w, BoundedPQueue.size q2 = BoundedPQueue.maxSize q2 ->
             BoundedPQueue.worst q2 = Finite w -> (gap == w)%Q -> ~ explore).
  { intros w Hfull Hw Hgap [Hlt|Hb]; [lia|].
    unfold below_worst in Hb. rewrite Hw in Hb. lra. }
  rewrite Hcalls, Hres. destruct c.
  - assert (He : explore) by now apply Hc.
    split; [tauto|]. split; [split; [tauto | intros E; contradiction]|].
    split; [tauto|]. split; [tauto | exact Htie].
  - assert (He : ~ explore) by (intros He; apply Hc in He; discriminate).
    split; [split; [tauto | intros E; symmetry in E; contradiction]|].
    split; [tauto|]. split; [tauto|]. split; [tauto | exact Htie].
Qed.
End Facts.
End KDFacts.

(** ** The tree, store layer *)

Module StoreFacts.
Import Store.
Section Facts.
Context {ElemType : Type} (N : nat).
Implicit Types (h : gmap loc (Node ElemType)) (p : option loc) (c : loc)
  (t tl tr : KD.Node ElemType) (F Fl Fr : gset loc) (st : state ElemType)
  (n : Node ElemType) (pt : Point) (v : ElemType).

#[local] Arguments fuel_of : simpl never.

Lemma repr_None_inv h t F : repr h None t F -> t = KD.NULL /\ F = ∅.
Proof. inversion 1. auto. Qed.

Lemma repr_Some_inv h c t F :
  repr h (Some c) t F ->
  exists n tl tr Fl Fr,
    h !! c = Some n /\ repr h (left n) tl Fl /\ repr h (right n) tr Fr /\
    (c ∉ Fl) /\ (c ∉ Fr) /\ Fl ## Fr /\ F = {[c]} ∪ Fl ∪ Fr /\
    t = KD.mkNode (point n) tl tr (level n) (value n).
Proof.
  inversion 1 as [|c' n tl tr Fl Fr F' Hc Hl Hr Hcl Hcr Hd HF].
  exists n, tl, tr, Fl, Fr. auto 10.
Qed.

(** The nodes of a tree are allocated. *)
Lemma repr_dom h p t F : repr h p t F -> F ⊆ dom h.
Proof.
  induction 1 as [|c n tl tr Fl Fr F Hc _ IHl _ IHr _ _ _ ->]; [set_solver|].
  assert (c ∈ dom h) by (apply elem_of_dom; eauto).
  set_solver.
Qed.

(** A tree only depends on the heap at the locations of its nodes. *)
Lemma repr_frame h h' p t F :
  repr h p t F -> (forall l, l ∈ F -> h' !! l = h !! l) -> repr h' p t F.
Proof.
  induction 1 as [|c n tl tr Fl Fr F Hc _ IHl _ IHr Hl Hr Hd ->]; intros Hag.
  - constructor.
  - eapply (repr_node h' c n tl tr Fl Fr); auto.
    + rewrite Hag; [exact Hc | set_solver].
    + apply IHl. intros l Hin. apply Hag. set_solver.
    + apply IHr. intros l Hin. apply Hag. set_solver.
Qed.

Lemma repr_height h p t F : repr h p t F -> KD.height t <= size F.
Proof.
  induction 1 as [|c n tl tr Fl Fr F Hc _ IHl _ IHr Hl Hr Hd ->]; simpl; [lia|].
  rewrite !size_union by set_solver. rewrite size_singleton. lia.
Qed.

(** [fuel_of] is enough fuel for every tree of the heap. *)
Lemma repr_fuel h p t F : repr h p t F -> KD.height t < fuel_of h.
Proof.
  intros Hr. unfold fuel_of.
  pose proof (repr_height _ _ _ _ Hr).
  pose proof (subseteq_size _ _ (repr_dom _ _ _ _ Hr)) as Hs.
  rewrite size_dom in Hs. lia.
Qed.

(** *** deepcopyTree *)

(** The copy of a tree is the same tree, on fresh locations; the heap it
    was copied from is as before. *)
Lemma deepcopyTree_spec t : forall fuel h p F,
  repr h p t F -> KD.height t < fuel ->
  exists p' h' F',
    deepcopyTree fuel h p = Some (p', h') /\
    repr h' p' t F' /\
    F' ## dom h /\
    dom h' = dom h ∪ F' /\
    (forall l, l ∈ dom h -> h' !! l = h !! l).
Proof.
  induction t as [|pp tl IHl tr IHr lvl vv]; intros fuel h p F Hr Hfuel.
  - destruct fuel as [|fuel]; [simpl in Hfuel; lia|].
    inversion Hr; subst. exists None, h, ∅. simpl.
    split_and!; [done | constructor | set_solver | set_solver | done].
  - destruct fuel as [|fuel]; [lia|]. simpl in Hfuel.
    destruct p as [c|]; [|apply repr_None_inv in Hr; destruct Hr; discriminate].
    apply repr_Some_inv in Hr.
    destruct Hr as (n & tl' & tr' & Fl & Fr & Hc & Hl & Hr & Hcl & Hcr & Hd & -> & Ht).
    injection Ht as -> <- <- -> ->.
    pose proof (repr_dom _ _ _ _ Hl) as Hdl.
    pose proof (repr_dom _ _ _ _ Hr) as Hdr.
    assert (Hcd : c ∈ dom h) by (apply elem_of_dom; eauto).
    set (nr := fresh (dom h)).
    assert (Hnr : nr ∉ dom h) by apply is_fresh.
    set (h0 := <[nr := n]> h).
    assert (Hag0 : forall l, l ∈ dom h -> h0 !! l = h !! l).
    { intros l Hin. unfold h0. rewrite lookup_insert_ne; [done|]. set_solver. }
    (* the left subtree *)
    destruct (IHl fuel h0 (left n) Fl) as (l' & h1 & Fl' & E1 & R1 & D1 & Dom1 & Ag1).
    { eapply repr_frame; [exact Hl|]. intros l Hin. apply Hag0. set_solver. }
    { lia. }
    set (h2 := alter (with_left l') nr h1).
    assert (Hdom0 : dom h0 = {[nr]} ∪ dom h) by (unfold h0; apply dom_insert_L).
    assert (Hdom2 : dom h2 = dom h1) by (unfold h2; apply dom_alter_L).
    assert (Hag2 : forall l, l ∈ dom h -> h2 !! l = h !! l).
    { intros l Hin. unfold h2. rewrite lookup_alter_ne by set_solver.
      rewrite Ag1 by set_solver. now apply Hag0. }
    (* the right subtree *)
    destruct (IHr fuel h2 (right n) Fr) as (r' & h3 & Fr' & E3 & R3 & D3 & Dom3 & Ag3).
    { eapply repr_frame; [exact Hr|]. intros l Hin. apply Hag2. set_solver. }
    { lia. }
    set (h4 := alter (with_right r') nr h3).
    assert (Hn1 : h1 !! nr = Some n).
    { rewrite Ag1 by set_solver. unfold h0. apply lookup_insert_eq. }
    assert (Hn2 : h2 !! nr = Some (with_left l' n)).
    { unfold h2. rewrite lookup_alter_eq, Hn1. reflexivity. }
    assert (Hn4 : h4 !! nr = Some (with_right r' (with_left l' n))).
    { unfold h4. rewrite lookup_alter_eq, Ag3, Hn2; [reflexivity|].
      rewrite Hdom2, Dom1, Hdom0. set_solver. }
    exists (Some nr), h4, ({[nr]} ∪ Fl' ∪ Fr').
    split_and!.
    + simpl. rewrite Hc. simpl. fold nr. fold h0.
      rewrite (Hag0 c Hcd), Hc. simpl. rewrite E1. simpl. fold h2.
      rewrite (Hag2 c Hcd), Hc. simpl. rewrite E3. reflexivity.
    + change (KD.mkNode (point n) tl tr (level n) (value n)) with
        (KD.mkNode (point (with_right r' (with_left l' n))) tl tr
                   (level (with_right r' (with_left l' n)))
                   (value (with_right r' (with_left l' n)))).
      eapply (repr_node h4 nr _ tl tr Fl' Fr'); [exact Hn4 | | | | | | reflexivity].
      * simpl. eapply repr_frame; [exact R1|]. intros l Hin.
        pose proof (repr_dom _ _ _ _ R1) as Hd1.
        assert (l <> nr) by set_solver.
        unfold h4. rewrite lookup_alter_ne by done.
        rewrite Ag3 by (rewrite Hdom2; set_solver).
        unfold h2. now rewrite lookup_alter_ne.
      * simpl. eapply repr_frame; [exact R3|]. intros l Hin.
        assert (l <> nr) by (rewrite Hdom2, Dom1, Hdom0 in D3; set_solver).
        unfold h4. now rewrite lookup_alter_ne.
      * rewrite Hdom0 in D1. set_solver.
      * rewrite Hdom2, Dom1, Hdom0 in D3. set_solver.
      * rewrite Hdom2, Dom1 in D3. set_solver.
    + rewrite Hdom0 in D1. rewrite Hdom2, Dom1, Hdom0 in D3. set_solver.
    + unfold h4. rewrite dom_alter_L, Dom3, Hdom2, Dom1, Hdom0. set_solver.
    + intros l Hin. assert (l <> nr) by set_solver.
      unfold h4. rewrite lookup_alter_ne by done.
      rewrite Ag3 by (rewrite Hdom2, Dom1, Hdom0; set_solver).
      now apply Hag2.
Qed.

(** *** freeResource *)

Lemma freeResource_spec t : forall fuel h p F,
  repr h p t F -> KD.height t < fuel ->
  exists h',
    freeResource fuel h p = Some h' /\
    dom h' = dom h ∖ F /\
    (forall l, l ∉ F -> h' !! l = h !! l).
Proof.
  induction t as [|pp tl IHl tr IHr lvl vv]; intros fuel h p F Hr Hfuel.
  - destruct fuel as [|fuel]; [simpl in Hfuel; lia|].
    inversion Hr; subst. exists h. simpl. split_and!; [done | set_solver | done].
  - destruct fuel as [|fuel]; [lia|]. simpl in Hfuel.
    destruct p as [c|]; [|apply repr_None_inv in Hr; destruct Hr; discriminate].
    apply repr_Some_inv in Hr.
    destruct Hr as (n & tl' & tr' & Fl & Fr & Hc & Hl & Hr & Hcl & Hcr & Hd & -> & Ht).
    injection Ht as -> <- <- -> ->.
    destruct (IHl fuel h (left n) Fl Hl) as (h1 & E1 & Dom1 & Ag1); [lia|].
    destruct (IHr fuel h1 (right n) Fr) as (h2 & E2 & Dom2 & Ag2).
    { eapply repr_frame; [exact Hr|]. intros l Hin. apply Ag1. set_solver. }
    { lia. }
    exists (delete c h2). split_and!.
    + simpl. rewrite Hc. simpl. rewrite E1. simpl.
      rewrite (Ag1 c Hcl), Hc. simpl. rewrite E2. reflexivity.
    + rewrite dom_delete_L, Dom2, Dom1. set_solver.
    + intros l Hin. assert (l <> c) by set_solver.
      rewrite lookup_delete_ne by done.
      rewrite Ag2 by set_solver. apply Ag1. set_solver.
Qed.

(** *** findNode and the writes of insert *)

Lemma repr_is_NULL h p t F : repr h p t F -> KD.is_NULL t = true <-> p = None.
Proof. destruct 1; simpl; split; congruence. Qed.

(** Overwriting the label of the node [findNode] returns gives the tree
    of [update_target (set_value v)], on the same locations. *)
Lemma findNode_set_value_repr pt v t : forall fuel h p F,
  repr h p t F -> KD.height t < fuel -> KD.found N t pt = true ->
  exists c n,
    findNode N fuel h p pt = Some (Some c) /\ h !! c = Some n /\
    Point_eqb N (point n) pt = true /\ c ∈ F /\
    repr (alter (with_value v) c h) p (KD.update_target N (KD.set_value v) t pt) F.
Proof.
  induction t as [|pp tl IHl tr IHr lvl vv]; intros fuel h p F Hr Hfuel Hf;
    [discriminate|].
  destruct fuel as [|fuel]; [lia|]. simpl in Hfuel.
  destruct p as [c0|]; [|apply repr_None_inv in Hr; destruct Hr; discriminate].
  apply repr_Some_inv in Hr.
  destruct Hr as (n0 & tl' & tr' & Fl & Fr & Hc & Hl & Hr & Hcl & Hcr & Hd & -> & Ht).
  injection Ht as -> <- <- -> ->.
  rewrite KDFacts.found_mkNode in Hf. simpl. rewrite Hc. simpl.
  destruct (Point_eqb N (point n0) pt) eqn:E.
  - exists c0, n0. split_and!; [done | done | done | set_solver |].
    eapply (repr_node _ c0 (with_value v n0) tl tr Fl Fr); try done.
    + now rewrite lookup_alter_eq, Hc.
    + eapply repr_frame; [exact Hl|]. intros l Hin.
      rewrite lookup_alter_ne; [done | set_solver].
    + eapply repr_frame; [exact Hr|]. intros l Hin.
      rewrite lookup_alter_ne; [done | set_solver].
  - destruct (Qltb (coord pt (level n0 mod N)) (coord (point n0) (level n0 mod N))).
    + destruct (KD.is_NULL tl) eqn:En; [discriminate|].
      destruct (left n0) as [cl|] eqn:El;
        [|apply repr_None_inv in Hl; destruct Hl as [-> _]; discriminate].
      destruct (IHl fuel h (Some cl) Fl Hl) as (c & n & Ef & Hn & Ep & Hin & Hrep);
        [lia | done |].
      exists c, n. split_and!; [done | done | done | set_solver |].
      assert (c <> c0) by set_solver.
      eapply (repr_node _ c0 n0 _ tr Fl Fr); try done.
      * now rewrite lookup_alter_ne.
      * now rewrite El.
      * eapply repr_frame; [exact Hr|]. intros l Hl'.
        rewrite lookup_alter_ne; [done | set_solver].
    + destruct (KD.is_NULL tr) eqn:En; [discriminate|].
      destruct (right n0) as [cr|] eqn:Er;
        [|apply repr_None_inv in Hr; destruct Hr as [-> _]; discriminate].
      destruct (IHr fuel h (Some cr) Fr Hr) as (c & n & Ef & Hn & Ep & Hin & Hrep);
        [lia | done |].
      exists c, n. split_and!; [done | done | done | set_solver |].
      assert (c <> c0) by set_solver.
      eapply (repr_node _ c0 n0 tl _ Fl Fr); try done.
      * now rewrite lookup_alter_ne.
      * eapply repr_frame; [exact Hl|]. intros l Hl'.
        rewrite lookup_alter_ne; [done | set_solver].
      * now rewrite Er.
Qed.

Lemma link_lookup_ne (b : bool) (f g : Node ElemType -> Node ElemType) c nw leaf h l :
  l <> c -> l <> nw ->
  (if b then alter f c (<[nw := leaf]> h) else alter g c (<[nw := leaf]> h)) !! l
  = h !! l.
Proof.
  intros H1 H2. destruct b; rewrite lookup_alter_ne by done; now rewrite lookup_insert_ne.
Qed.

(** Allocating a node for [pt] and linking it below the node [findNode]
    returns gives the tree of [update_target (attach pt v)], on the old
    locations and the new one. *)
Lemma findNode_attach_repr pt v t : forall fuel h p F,
  repr h p t F -> KD.height t < fuel ->
  KD.is_NULL t = false -> KD.found N t pt = false ->
  exists c n,
    findNode N fuel h p pt = Some (Some c) /\ h !! c = Some n /\
    Point_eqb N (point n) pt = false /\ c ∈ F /\
    forall nw, nw ∉ dom h ->
      let h1 := <[nw := mkNode pt None None (level n + 1) v]> h in
      let h2 :=
        if Qltb (coord pt (level n mod N)) (coord (point n) (level n mod N))
        then alter (with_left (Some nw)) c h1
        else alter (with_right (Some nw)) c h1 in
      repr h2 p (KD.update_target N (KD.attach N pt v) t pt) ({[nw]} ∪ F).
Proof.
  induction t as [|pp tl IHl tr IHr lvl vv]; intros fuel h p F Hr Hfuel Hnn Hf;
    [discriminate|].
  destruct fuel as [|fuel]; [lia|]. simpl in Hfuel.
  destruct p as [c0|]; [|apply repr_None_inv in Hr; destruct Hr; discriminate].
  apply repr_Some_inv in Hr.
  destruct Hr as (n0 & tl' & tr' & Fl & Fr & Hc & Hl & Hr & Hcl & Hcr & Hd & -> & Ht).
  injection Ht as -> <- <- -> ->.
  pose proof (repr_dom _ _ _ _ Hl) as Hdl.
  pose proof (repr_dom _ _ _ _ Hr) as Hdr.
  assert (Hcd : c0 ∈ dom h) by (apply elem_of_dom; eauto).
  rewrite KDFacts.found_mkNode in Hf. simpl. rewrite Hc. simpl.
  destruct (Point_eqb N (point n0) pt) eqn:E; [discriminate|].
  destruct (Qltb (coord pt (level n0 mod N)) (coord (point n0) (level n0 mod N))) eqn:C.
  - destruct (left n0) as [cl|] eqn:El.
    + assert (En : KD.is_NULL tl = false).
      { apply repr_Some_inv in Hl. destruct Hl as (? & ? & ? & ? & ? & Hl). 
        destruct Hl as (_ & _ & _ & _ & _ & _ & _ & ->). reflexivity. }
      rewrite En in *.
      destruct (IHl fuel h (Some cl) Fl Hl) as (c & n & Ef & Hn & Ep & Hin & Hrep);
        [lia | done | done |].
      exists c, n. split_and!; [done | done | done | set_solver |].
      intros nw Hnw. specialize (Hrep nw Hnw). cbv zeta in Hrep |- *.
      assert (c0 <> c) by set_solver. assert (c0 <> nw) by set_solver.
      eapply (repr_node _ c0 n0 _ tr ({[nw]} ∪ Fl) Fr).
      * now rewrite link_lookup_ne.
      * now rewrite El.
      * eapply repr_frame; [exact Hr|]. intros l Hl'.
        apply link_lookup_ne; set_solver.
      * set_solver.
      * done.
      * set_solver.
      * set_solver.
    + apply repr_None_inv in Hl. destruct Hl as [-> ->]. simpl.
      exists c0, n0. split_and!; [done | done | done | set_solver |].
      intros nw Hnw. cbv zeta. rewrite ?C. simpl. rewrite ?C.
      assert (c0 <> nw) by set_solver.
      change (KD.mkNode (point n0) (KD.mkNode pt KD.NULL KD.NULL (level n0 + 1) v) tr
                        (level n0) (value n0))
        with (KD.mkNode (point (with_left (Some nw) n0))
                        (KD.mkNode pt KD.NULL KD.NULL (level n0 + 1) v) tr
                        (level (with_left (Some nw) n0)) (value (with_left (Some nw) n0))).
      eapply (repr_node _ c0 (with_left (Some nw) n0) _ tr {[nw]} Fr).
      * rewrite lookup_alter_eq, lookup_insert_ne by done. now rewrite Hc.
      * simpl.
        eapply (repr_node _ nw (mkNode pt None None (level n0 + 1) v) KD.NULL KD.NULL ∅ ∅).
        -- rewrite lookup_alter_ne by done. apply lookup_insert_eq.
        -- constructor.
        -- constructor.
        -- set_solver.
        -- set_solver.
        -- set_solver.
        -- set_solver.
      * simpl. eapply repr_frame; [exact Hr|]. intros l Hl'.
        rewrite lookup_alter_ne by set_solver. apply lookup_insert_ne. set_solver.
      * set_solver.
      * done.
      * set_solver.
      * set_solver.
  - destruct (right n0) as [cr|] eqn:Er.
    + assert (En : KD.is_NULL tr = false).
      { apply repr_Some_inv in Hr. destruct Hr as (? & ? & ? & ? & ? & Hr). 
        destruct Hr as (_ & _ & _ & _ & _ & _ & _ & ->). reflexivity. }
      rewrite En in *.
      destruct (IHr fuel h (Some cr) Fr Hr) as (c & n & Ef & Hn & Ep & Hin & Hrep);
        [lia | done | done |].
      exists c, n. split_and!; [done | done | done | set_solver |].
      intros nw Hnw. specialize (Hrep nw Hnw). cbv zeta in Hrep |- *.
      assert (c0 <> c) by set_solver. assert (c0 <> nw) by set_solver.
      eapply (repr_node _ c0 n0 tl _ Fl ({[nw]} ∪ Fr)).
      * now rewrite link_lookup_ne.
      * eapply repr_frame; [exact Hl|]. intros l Hl'.
        apply link_lookup_ne; set_solver.
      * now rewrite Er.
      * done.
      * set_solver.
      * set_solver.
      * set_solver.
    + apply repr_None_inv in Hr. destruct Hr as [-> ->]. simpl.
      exists c0, n0. split_and!; [done | done | done | set_solver |].
      intros nw Hnw. cbv zeta. rewrite ?C. simpl. rewrite ?C.
      assert (c0 <> nw) by set_solver.
      change (KD.mkNode (point n0) tl (KD.mkNode pt KD.NULL KD.NULL (level n0 + 1) v)
                        (level n0) (value n0))
        with (KD.mkNode (point (with_right (Some nw) n0)) tl
                        (KD.mkNode pt KD.NULL KD.NULL (level n0 + 1) v)
                        (level (with_right (Some nw) n0)) (value (with_right (Some nw) n0))).
      eapply (repr_node _ c0 (with_right (Some nw) n0) tl _ Fl {[nw]}).
      * rewrite lookup_alter_eq, lookup_insert_ne by done. now rewrite Hc.
      * simpl. eapply repr_frame; [exact Hl|]. intros l Hl'.
        rewrite lookup_alter_ne by set_solver. apply lookup_insert_ne. set_solver.
      * simpl.
        eapply (repr_node _ nw (mkNode pt None None (level n0 + 1) v) KD.NULL KD.NULL ∅ ∅).
        -- rewrite lookup_alter_ne by done. apply lookup_insert_eq.
        -- constructor.
        -- constructor.
        -- set_solver.
        -- set_solver.
        -- set_solver.
        -- set_solver.
      * done.
      * set_solver.
      * set_solver.
      * set_solver.
Qed.

(** *** The member functions, on objects *)

(** An object only depends on its own cell and on its nodes. *)
Lemma holds_frame st st' b (T : KD.KDTree ElemType) F :
  holds st b T F ->
  objects st' !! b = objects st !! b ->
  (forall l, l ∈ F -> nodes st' !! l = nodes st !! l) ->
  holds st' b T F.
Proof.
  intros (o & Ho & Hr & Hs) Hob Hag. exists o. split_and!; [congruence | | done].
  eapply repr_frame; eassumption.
Qed.

(** [insert] on the store does what [insert] does on the value layer; it
    writes to the object, to its nodes and to fresh locations only. *)
Lemma insert_holds st a (T : KD.KDTree ElemType) F pt v :
  holds st a T F ->
  exists st' F',
    insert N st a pt v = Some st' /\
    holds st' a (KD.insert N T pt v) F' /\
    F ⊆ F' /\ (F' ∖ F) ## dom (nodes st) /\
    (forall l, l ∉ F -> l ∈ dom (nodes st) -> nodes st' !! l = nodes st !! l) /\
    (forall b, b <> a -> objects st' !! b = objects st !! b).
Proof.
  intros (o & Ho & Hr & Hs). unfold insert. rewrite Ho. cbn.
  rewrite KDFacts.insert_cases.
  pose proof (repr_fuel _ _ _ _ Hr) as Hfuel.
  destruct (KD.is_NULL (KD.root_ T)) eqn:En.
  - pose proof (proj1 (repr_is_NULL _ _ _ _ Hr) En) as Hroot.
    rewrite Hroot in *. apply repr_None_inv in Hr. destruct Hr as [_ ->].
    unfold fuel_of. simpl.
    set (nw := fresh (dom (nodes st))).
    assert (Hnw : nw ∉ dom (nodes st)) by apply is_fresh.
    eexists _, {[nw]}. split_and!; [reflexivity | | set_solver | set_solver | |].
    + eexists. simpl. split_and!; [apply lookup_insert_eq | | reflexivity].
      eapply (repr_node _ nw (mkNode pt None None 0 v) KD.NULL KD.NULL ∅ ∅);
        [apply lookup_insert_eq | constructor | constructor | set_solver..].
    + intros l _ Hl. simpl. apply lookup_insert_ne. set_solver.
    + intros b Hb. simpl. now apply lookup_insert_ne.
  - destruct (KD.found N (KD.root_ T) pt) eqn:Ef.
    + destruct (findNode_set_value_repr pt v _ _ _ _ _ Hr Hfuel Ef)
        as (c & n & Efn & Hn & Ep & Hin & Hrep).
      rewrite Efn. cbn. rewrite Hn. cbn. rewrite Ep.
      eexists _, F. split_and!; [reflexivity | | set_solver | set_solver | |].
      * exists o. simpl. auto.
      * intros l Hl _. simpl. apply lookup_alter_ne. set_solver.
      * reflexivity.
    + destruct (findNode_attach_repr pt v _ _ _ _ _ Hr Hfuel En Ef)
        as (c & n & Efn & Hn & Ep & Hin & Hrep).
      rewrite Efn. cbn. rewrite Hn. cbn. rewrite Ep.
      set (nw := fresh (dom (nodes st))).
      assert (Hnw : nw ∉ dom (nodes st)) by apply is_fresh.
      specialize (Hrep nw Hnw). cbv zeta in Hrep.
      eexists _, ({[nw]} ∪ F). split_and!; [reflexivity | | set_solver | set_solver | |].
      * eexists. simpl. split_and!; [apply lookup_insert_eq | exact Hrep | simpl; lia].
      * intros l Hl Hd. simpl. apply link_lookup_ne; set_solver.
      * intros b Hb. simpl. now apply lookup_insert_ne.
Qed.

Lemma separate_sym st a c (Ta Tc : KD.KDTree ElemType) :
  separate st a c Ta Tc -> separate st c a Tc Ta.
Proof.
  intros (Hne & Fa & Fc & Ha & Hc & Hd). split; [congruence|].
  exists Fc, Fa. split_and!; [done | done | set_solver].
Qed.

Lemma holds_dom st a (T : KD.KDTree ElemType) F : holds st a T F -> F ⊆ dom (nodes st).
Proof. intros (o & _ & Hr & _). eapply repr_dom. exact Hr. Qed.

(** [insert] into one of two separate objects leaves the other as it is. *)
Lemma insert_separate st a c (Ta Tc : KD.KDTree ElemType) pt v :
  separate st a c Ta Tc ->
  exists st', insert N st c pt v = Some st' /\
              separate st' a c Ta (KD.insert N Tc pt v).
Proof.
  intros (Hne & Fa & Fc & Ha & Hc & Hd).
  destruct (insert_holds st c Tc Fc pt v Hc) as (st' & Fc' & Ei & Hc' & Hsub & Hnew & Hag & Hob).
  exists st'. split; [exact Ei|]. split; [exact Hne|].
  pose proof (holds_dom _ _ _ _ Ha) as Hda.
  exists Fa, Fc'. split_and!; [| exact Hc' | set_solver].
  eapply holds_frame; [exact Ha | now apply Hob |].
  intros l Hl. apply Hag; set_solver.
Qed.

Lemma inserts_separate ops : forall st a c (Ta Tc : KD.KDTree ElemType),
  separate st a c Ta Tc ->
  exists st', inserts N st c ops = Some st' /\
              separate st' a c Ta (KD.inserts N Tc ops).
Proof.
  induction ops as [|[pt v] ops IH]; intros st a c Ta Tc Hsep.
  - exists st. auto.
  - destruct (insert_separate st a c Ta Tc pt v Hsep) as (st1 & E1 & Hsep1).
    destruct (IH st1 a c Ta _ Hsep1) as (st2 & E2 & Hsep2).
    exists st2. simpl. rewrite E1. simpl. auto.
Qed.

(** The copy constructor makes a separate object with the same tree. *)
Lemma copy_construct_separate st a (T : KD.KDTree ElemType) F :
  holds st a T F ->
  exists c st1, copy_construct st a = Some (c, st1) /\
                (c ∉ dom (objects st)) /\ separate st1 a c T T.
Proof.
  intros Ha. pose proof Ha as (o & Ho & Hr & Hs).
  unfold copy_construct. rewrite Ho. cbn.
  destruct (deepcopyTree_spec _ _ _ _ _ Hr (repr_fuel _ _ _ _ Hr))
    as (r & h' & F' & Ec & Hr' & Hd & Hdom & Hag).
  rewrite Ec. cbn.
  set (c := fresh (dom (objects st))).
  assert (Hc : c ∉ dom (objects st)) by apply is_fresh.
  assert (Hac : a <> c).
  { intros ->. apply Hc. apply elem_of_dom. eauto. }
  eexists c, _. split_and!; [reflexivity | exact Hc |].
  split; [exact Hac|].
  pose proof (repr_dom _ _ _ _ Hr) as HF.
  exists F, F'. split_and!; [| | set_solver].
  - eapply holds_frame; [exact Ha | cbn; now apply lookup_insert_ne |].
    intros l Hl. cbn. apply Hag. set_solver.
  - eexists. cbn. split_and!; [apply lookup_insert_eq | exact Hr' | exact Hs].
Qed.

(** Assignment frees the nodes of the receiver and makes it a separate
    object with the tree of the source. *)
Lemma assign_separate st a c (Ta Tc : KD.KDTree ElemType) :
  separate st a c Ta Tc ->
  exists st1, assign st c a = Some st1 /\ separate st1 a c Ta Ta.
Proof.
  intros (Hne & Fa & Fc & Ha & Hc & Hd).
  destruct Ha as (oa & Hoa & Hra & Hsa). destruct Hc as (oc & Hoc & Hrc & Hsc).
  unfold assign. destruct (decide (c = a)) as [->|_]; [congruence|].
  rewrite Hoc. cbn.
  destruct (freeResource_spec _ _ _ _ _ Hrc (repr_fuel _ _ _ _ Hrc))
    as (h1 & Ef & Hdom1 & Hag1).
  rewrite Ef. cbn. rewrite Hoa. cbn.
  assert (Hra1 : repr h1 (root_ oa) (KD.root_ Ta) Fa).
  { eapply repr_frame; [exact Hra|]. intros l Hl. apply Hag1. set_solver. }
  destruct (deepcopyTree_spec _ _ _ _ _ Hra1 (repr_fuel _ _ _ _ Hra1))
    as (r & h2 & F' & Ec & Hr' & Hd2 & Hdom2 & Hag2).
  rewrite Ec. cbn.
  eexists. split; [reflexivity|]. split; [exact Hne|].
  pose proof (repr_dom _ _ _ _ Hra1) as HF.
  exists Fa, F'. split_and!; [| | set_solver].
  - exists oa. cbn. split_and!; [now rewrite lookup_insert_ne | | exact Hsa].
    eapply repr_frame; [exact Hra1|]. intros l Hl. apply Hag2. set_solver.
  - eexists. cbn. split_and!; [apply lookup_insert_eq | exact Hr' | exact Hsa].
Qed.

(** Assigning an object to itself changes nothing. *)
Lemma assign_self st a : assign st a a = Some st.
Proof. unfold assign. now rewrite decide_True. Qed.

(** C9: the copy constructor and the assignment operator give the receiver
    the tree of the source on nodes of its own; whatever is then inserted
    or overwritten in one of the two objects, the other keeps its size and
    its tree. *)
Theorem copy_is_deep st a (T : KD.KDTree ElemType) F :
  holds st a T F ->
  (exists c st1,
     copy_construct st a = Some (c, st1) /\ separate st1 a c T T /\
     forall ops,
       (exists st2, inserts N st1 c ops = Some st2 /\
                    separate st2 a c T (KD.inserts N T ops)) /\
       (exists st2, inserts N st1 a ops = Some st2 /\
                    separate st2 a c (KD.inserts N T ops) T)) /\
  (forall c Tc, separate st a c T Tc ->
     exists st1,
       assign st c a = Some st1 /\ separate st1 a c T T /\
       forall ops,
         (exists st2, inserts N st1 c ops = Some st2 /\
                      separate st2 a c T (KD.inserts N T ops)) /\
         (exists st2, inserts N st1 a ops = Some st2 /\
                      separate st2 a c (KD.inserts N T ops) T)).
Proof.
  intros Ha.
  assert (Hops : forall st1 c, separate st1 a c T T ->
    forall ops,
       (exists st2, inserts N st1 c ops = Some st2 /\
                    separate st2 a c T (KD.inserts N T ops)) /\
       (exists st2, inserts N st1 a ops = Some st2 /\
                    separate st2 a c (KD.inserts N T ops) T)).
  { intros st1 c Hsep ops. split.
    - now apply inserts_separate.
    - destruct (inserts_separate ops st1 c a T T (separate_sym _ _ _ _ _ Hsep))
        as (st2 & E & Hsep2).
      exists st2. split; [exact E | now apply separate_sym]. }
  split.
  - destruct (copy_construct_separate st a T F Ha) as (c & st1 & Ec & _ & Hsep).
    exists c, st1. split_and!; [exact Ec | exact Hsep | now apply Hops].
  - intros c Tc Hsep.
    destruct (assign_separate st a c T Tc Hsep) as (st1 & Ea & Hsep1).
    exists st1. split_and!; [exact Ea | exact Hsep1 | now apply Hops].
Qed.
End Facts.
End StoreFacts.

(* ================================================================== *)
(** * The properties at concrete inputs *)

Module AtInputs.
Import Examples.

(** [enqueue_inserts_then_evicts_largest] on a full queue of capacity 2:
    the new entry (1, 12) is kept and the entry (3, 11) is evicted. *)
Lemma enqueue_evicts_largest_at_full_queue :
  BoundedPQueue.reachable full_queue /\
  (exists e,
     BoundedPQueue.is_largest e
       (BoundedPQueue.multimap_insert (1%Q, 12) (BoundedPQueue.elems full_queue)) /\
     BoundedPQueue.multimap_insert (1%Q, 12) (BoundedPQueue.elems full_queue)
     = BoundedPQueue.elems (BoundedPQueue.enqueue 12 1%Q full_queue) ++ [e]) /\
  BoundedPQueue.size (BoundedPQueue.enqueue 12 1%Q full_queue)
  <= BoundedPQueue.maxSize (BoundedPQueue.enqueue 12 1%Q full_queue).
Proof.
  assert (Hr : BoundedPQueue.reachable full_queue).
  { unfold full_queue. repeat constructor. }
  split; [exact Hr|].
  destruct (BoundedPQueueFacts.enqueue_inserts_then_evicts_largest full_queue 12 1%Q Hr)
    as (_ & _ & Hev & Hsz).
  split; [|exact Hsz]. apply Hev. vm_compute. lia.
Defined.

(** [enqueue_full_not_better_unchanged] on the same queue, with a priority
    equal to worst(). *)
Lemma enqueue_tie_at_full_queue :
  BoundedPQueue.reachable full_queue /\
  BoundedPQueue.elems (BoundedPQueue.enqueue 12 3%Q full_queue)
  = BoundedPQueue.elems full_queue.
Proof.
  assert (Hr : BoundedPQueue.reachable full_queue).
  { unfold full_queue. repeat constructor. }
  split; [exact Hr|].
  apply (BoundedPQueueFacts.enqueue_full_not_better_unchanged full_queue 12 3%Q 3%Q).
  - exact Hr.
  - reflexivity.
  - vm_compute. lia.
  - reflexivity.
  - apply Qle_refl.
Defined.

(** [far_child_explored_iff] at the root of [tie_tree] for the key (0, 1)
    and k = 1: the gap 1 equals worst(), and the right child is not
    visited. *)
Lemma far_child_not_explored_at_tie :
  snd (KD.nearestNeighborTrace 2 (KD.root_ tie_tree) [0; 1]%Q (BoundedPQueue.create 1))
  = [KD.root_ tie_tree; KD.mkNode [0; 0]%Q KD.NULL KD.NULL 1 2; KD.NULL].
Proof.
  destruct (KDFacts.far_child_explored_iff 2 [1; 0]%Q
              (KD.mkNode [0; 0]%Q KD.NULL KD.NULL 1 2)
              (KD.mkNode [1; 1]%Q KD.NULL KD.NULL 1 3) 0 1 [0; 1]%Q
              (BoundedPQueue.create 1))
    as (_ & [Hno _] & _ & _ & Htie).
  apply Hno. apply (Htie 1%Q); reflexivity.
Defined.

(** C4 fails as stated: bulk construction from a collection that holds the
    same point twice makes two nodes with that point. *)
Lemma buildTree_keeps_equal_points :
  KD.points (KD.root_ twice_tree) = [[1; 1]%Q; [1; 1]%Q] /\
  ~ KD.distinct_points 2 (KD.points (KD.root_ twice_tree)).
Proof.
  split; [reflexivity|].
  intros H. apply KDFacts.distinct_pointsb_spec in H. vm_compute in H. discriminate.
Qed.

(** [inserts_never_duplicate] for the bulk construction from
    [five_points] and for three inserts into the empty tree. *)
Lemma inserts_never_duplicate_from_empty :
  KD.nth_element_ok (@KD.nth_element_lazy nat) /\
  0 < 2 /\ KD.tree_invariant 2 (@KD.KDTree_empty nat) /\
  KD.distinct_points 2 (KD.points (KD.root_ five_tree)) /\
  KD.distinct_points 2 (KD.points (KD.root_ three_tree)).
Proof.
  assert (Hinv : KD.tree_invariant 2 (@KD.KDTree_empty nat)).
  { unfold KD.tree_invariant. simpl. repeat split; constructor. }
  assert (Hd : KD.distinct_points 2 (map fst five_points)).
  { apply KDFacts.distinct_pointsb_spec. vm_compute. reflexivity. }
  pose proof (@KDFacts.nth_element_lazy_ok nat) as Hok.
  split; [exact Hok|]. split; [lia|]. split; [exact Hinv|].
  destruct (KDFacts.inserts_never_duplicate 2 KD.nth_element_lazy five_points
              KD.KDTree_empty three_inserts Hok ltac:(lia) Hinv) as [Hb [Hi _]].
  split; [apply Hb, Hd | exact Hi].
Defined.

(** C3, the code at a failing input: with an [nth_element] that meets the
    standard, [buildTree] puts (5, 1) into the left subtree of the root
    (5, 0), although its coordinate 0 is not below the root's. *)
Theorem buildTree_breaks_axis_invariant :
  KD.nth_element_ok (@KD.nth_element_lazy nat) /\
  KD.root_ five_tree
  = KD.mkNode [5; 0]%Q
      (KD.mkNode [5; 1]%Q (KD.mkNode [3; 0]%Q KD.NULL KD.NULL 2 1) KD.NULL 1 0)
      (KD.mkNode [7; 0]%Q KD.NULL (KD.mkNode [8; 0]%Q KD.NULL KD.NULL 2 4) 1 3)
      0 2 /\
  ~ KD.axis_invariant 2 (KD.root_ five_tree).
Proof.
  split; [apply KDFacts.nth_element_lazy_ok|]. split; [reflexivity|].
  intros H. apply KDFacts.axis_invariantb_spec in H. vm_compute in H. discriminate.
Qed.

(** C6, the code at a failing input: the tree built from [five_points]
    holds (5, 1) with label 0, and [contains] does not find it. *)
Theorem contains_misses_stored_point :
  In ([5; 1]%Q, 0) (KD.bindings (KD.root_ five_tree)) /\
  KD.contains 2 five_tree [5; 1]%Q = false.
Proof.
  split; [|reflexivity]. vm_compute. tauto.
Qed.

(** C7, the code at a failing input: [at] raises out_of_range for a point
    that a node of the tree holds. *)
Theorem at_raises_for_stored_point :
  KD.stored 2 [5; 1]%Q (KD.root_ five_tree) /\
  KD.at_ 2 five_tree [5; 1]%Q = inl KD.out_of_range.
Proof.
  split; [|reflexivity].
  exists [5; 1]%Q. split; [|reflexivity]. vm_compute. tauto.
Qed.

(** C1, the code at a failing input: in a tree that satisfies the invariant
    of the class, the search with k = 1 for the key (0, 0) answers the label
    of (-5/8, 0), at squared distance 25/64, and never visits (1/2, 0), at
    squared distance 1/4, which the linear scan finds. *)
Theorem kNNValue_misses_nearest :
  KD.tree_invariant 2 three_tree /\
  KD.kNNValue 2 three_tree [0; 0]%Q 1 = 1 /\
  KD.naive_kNNValue 2 three_tree [0; 0]%Q 1 = 2 /\
  snd (KD.nearestNeighborTrace 2 (KD.root_ three_tree) [0; 0]%Q (BoundedPQueue.create 1))
  = [KD.root_ three_tree; KD.mkNode [-5 # 8; 0]%Q KD.NULL KD.NULL 1 1; KD.NULL; KD.NULL].
Proof.
  split; [|split; [reflexivity | split; reflexivity]].
  apply (KDFacts.tree_invariant_inserts 2 KD.KDTree_empty three_inserts); [lia|].
  unfold KD.tree_invariant. simpl. repeat split; constructor.
Qed.

(** [copy_is_deep] for the store with one object: the object is copied,
    and the copy is then assigned from it again. *)
Lemma copy_is_deep_at_one_node :
  Store.holds one_node_store 1%positive one_node_tree {[ 1%positive ]} /\
  exists c st1 st2,
    Store.copy_construct one_node_store 1%positive = Some (c, st1) /\
    Store.separate st1 1%positive c one_node_tree one_node_tree /\
    Store.assign st1 c 1%positive = Some st2 /\
    Store.separate st2 1%positive c one_node_tree one_node_tree.
Proof.
  assert (H : Store.holds one_node_store 1%positive one_node_tree {[ 1%positive ]}).
  { exists (Store.mkKDTree (Some 1%positive) 1).
    split; [reflexivity|]. split; [|reflexivity].
    apply (Store.repr_node _ 1%positive (Store.mkNode [1; 2]%Q None None 0 5)
             KD.NULL KD.NULL ∅ ∅).
    - reflexivity.
    - constructor.
    - constructor.
    - apply not_elem_of_empty.
    - apply not_elem_of_empty.
    - apply disjoint_empty_l.
    - vm_compute. reflexivity. }
  split; [exact H|].
  destruct (StoreFacts.copy_is_deep 2 one_node_store 1%positive one_node_tree _ H)
    as [(c & st1 & E & Hsep & _) _].
  pose proof Hsep as (_ & Fa & _ & H1 & _).
  destruct (StoreFacts.copy_is_deep 2 st1 1%positive one_node_tree Fa H1) as [_ Hassign].
  destruct (Hassign c one_node_tree Hsep) as (st2 & E2 & Hsep2 & _).
  exists c, st1, st2.
  split; [exact E|]. split; [exact Hsep|]. split; [exact E2 | exact Hsep2].
Defined.
End AtInputs.

(* ================================================================== *)
(** * Further properties of the bounded priority queue *)

Module BoundedPQueueProps.
Import BoundedPQueue BoundedPQueueFacts.
Section Props.
Context {T : Type}.
Implicit Types (l : list (Q * T)) (e : Q * T) (q : BoundedPQueue T).

(** Only the first [k] stored entries decide the first [k] entries after an
    insertion. *)
Lemma take_multimap_insert k e l :
  take k (multimap_insert e (take k l)) = take k (multimap_insert e l).
Proof.
  revert k. induction l as [|x l IH]; intros k.
  - now rewrite take_nil.
  - destruct k as [|k]; [reflexivity|]. simpl.
    destruct (Qltb (fst e) (fst x)); simpl.
    + f_equal. change (x :: take k l) with (take (S k) (x :: l)).
      rewrite take_take. f_equal. lia.
    + f_equal. apply IH.
Qed.

Lemma removelast_take l : removelast l = take (length l - 1) l.
Proof.
  rewrite removelast_firstn_len. f_equal. lia.
Qed.

(** [enqueue] keeps the first [maxSize] entries of the multimap after the
    insertion. *)
Lemma enqueue_take q value prio :
  size q <= maxSize q ->
  elems (enqueue value prio q)
  = take (maxSize q) (multimap_insert (prio, value) (elems q)).
Proof.
  intros Hs. unfold enqueue, size, maxSize in *.
  pose proof (multimap_insert_length (prio, value) (elems q)) as Hl.
  destruct (Nat.ltb_spec (maximumSize q) (length (multimap_insert (prio, value) (elems q))));
    simpl.
  - rewrite removelast_take. f_equal. lia.
  - symmetry. apply take_ge. lia.
Qed.

Lemma enqueue_all_maxSize es q : maxSize (enqueue_all es q) = maxSize q.
Proof.
  unfold enqueue_all. revert q.
  induction es as [|e es IH]; intros q; simpl; [reflexivity|].
  rewrite IH. apply enqueue_maxSize.
Qed.

Lemma enqueue_all_take es : forall q L,
  elems q = take (maxSize q) L ->
  elems (enqueue_all es q)
  = take (maxSize q) (fold_left (fun acc e => multimap_insert e acc) es L).
Proof.
  unfold enqueue_all.
  induction es as [|e es IH]; intros q L Hq; [exact Hq|].
  simpl.
  rewrite (IH (enqueue (snd e) (fst e) q) (multimap_insert e L)).
  - now rewrite enqueue_maxSize.
  - rewrite enqueue_maxSize, enqueue_take.
    + rewrite Hq. destruct e as [p v]. apply take_multimap_insert.
    + unfold size. rewrite Hq, length_take. lia.
Qed.

(** X1: whatever is enqueued into a new queue of capacity [k], the queue
    then holds the first [k] entries of the ordered multimap of everything
    that was enqueued: the [k] smallest priorities, ties kept in order of
    arrival. *)
Theorem enqueue_all_keeps_smallest (k : nat) (es : list (Q * T)) :
  elems (enqueue_all es (create k)) = take k (multimap_of es) /\
  sorted (multimap_of es) /\
  Permutation (multimap_of es) es.
Proof.
  split; [|split].
  - apply (enqueue_all_take es (create k) []). simpl. now rewrite take_nil.
  - unfold multimap_of.
    assert (H : forall L, sorted L ->
                sorted (fold_left (fun acc e => multimap_insert e acc) es L)).
    { induction es as [|e es IH]; intros L HL; [exact HL|].
      simpl. apply IH. now apply multimap_insert_sorted. }
    apply H. constructor.
  - unfold multimap_of.
    assert (H : forall L,
       Permutation (fold_left (fun acc e => multimap_insert e acc) es L) (es ++ L)).
    { induction es as [|e es IH]; intros L; [reflexivity|].
      simpl. rewrite IH, multimap_insert_perm. symmetry. apply Permutation_middle. }
    rewrite H. now rewrite app_nil_r.
Qed.

(** X2: [dequeueMin] fails exactly on the empty queue; otherwise it returns
    the value of an entry of smallest priority, the one [best()] reports,
    and leaves the other entries, in order, in a queue of the same
    capacity. *)
Theorem dequeueMin_removes_best q :
  reachable q ->
  (dequeueMin q = None <-> empty q = true) /\
  forall v q', dequeueMin q = Some (v, q') ->
    exists p,
      elems q = (p, v) :: elems q' /\
      best q = Finite p /\
      (forall x, In x (elems q) -> (p <= fst x)%Q) /\
      size q' + 1 = size q /\
      maxSize q' = maxSize q /\
      reachable q'.
Proof.
  intros Hr. destruct (reachable_wf q Hr) as [Hs _]. split.
  - unfold dequeueMin, empty. destruct (elems q) as [|[p v] rest]; split; congruence.
  - intros v q' Hd. pose proof (reach_dequeue q v q' Hr Hd) as Hr'.
    unfold dequeueMin, best, size, maxSize in *.
    destruct (elems q) as [|[p v0] rest] eqn:E; [discriminate|].
    injection Hd as <- <-. simpl. exists p.
    split_and!; [reflexivity | reflexivity | | lia | reflexivity | exact Hr'].
    intros x [<-|Hx]; [apply Qle_refl|].
    apply StronglySorted_inv in Hs. destruct Hs as [_ Hall].
    rewrite List.Forall_forall in Hall. apply (Hall x Hx).
Qed.

End Props.
End BoundedPQueueProps.

(* ================================================================== *)
(** * Further properties of points *)

Module PointProps.


Lemma forallb_false_exists {A} (f : A -> bool) (l : list A) :
  forallb f l = false -> exists x, In x l /\ f x = false.
Proof.
  induction l as [|a l IH]; simpl; [discriminate|].
  destruct (f a) eqn:E; simpl.
  - intros H. destruct (IH H) as (x & Hx & Hf). eauto.
  - intros _. eauto.
Qed.

Section Props.
Variable N : nat.
Implicit Types (one two three : Point) (acc : Q) (l : list nat).


Lemma Distance_loop_compat one two one' two' l : forall acc acc',
  (acc == acc')%Q ->
  (forall i, In i l ->
     ((coord one i - coord two i) * (coord one i - coord two i)
      == (coord one' i - coord two' i) * (coord one' i - coord two' i))%Q) ->
  (fold_left
     (fun result i =>
        (result + (coord one i - coord two i) * (coord one i - coord two i))%Q) l acc
   == fold_left
        (fun result i =>
           (result + (coord one' i - coord two' i) * (coord one' i - coord two' i))%Q)
        l acc')%Q.
Proof.
  induction l as [|i l IH]; intros acc acc' Ha Ht; simpl; [exact Ha|].
  apply IH.
  - rewrite Ha, (Ht i); [reflexivity | now left].
  - intros j Hj. apply Ht. now right.
Qed.




(** X5: [==] on points is an equivalence relation, it only looks at the
    first [N] coordinates, and [!=] is its negation; points that are [==]
    have the same squared distance to every point. *)
Theorem Point_eq_equivalence one two three :
  Point_eqb N one one = true /\
  Point_eqb N one two = Point_eqb N two one /\
  (Point_eqb N one two = true -> Point_eqb N two three = true ->
   Point_eqb N one three = true) /\
  (Point_eqb N one two = true ->
   (Distance N one three == Distance N two three)%Q) /\
  (Point_neqb N one two = true <-> exists i, i < N /\ ~ (coord one i == coord two i)%Q).
Proof.
  split; [apply Point_eqb_refl|]. split; [apply Point_eqb_sym|].
  split; [apply Point_eqb_trans|]. split.
  - intros E. rewrite Point_eqb_coord in E. unfold Distance.
    apply Distance_loop_compat; [reflexivity|].
    intros i Hi. apply in_seq in Hi. rewrite (E i); [reflexivity | lia].
  - unfold Point_neqb, Point_eqb. rewrite negb_true_iff. split.
    + intros E. apply forallb_false_exists in E.
      destruct E as (i & Hi & Hb).
      exists i. apply in_seq in Hi. split; [lia|].
      intros Heq. apply Qeq_bool_iff in Heq. congruence.
    + intros (i & Hi & Hne).
      destruct (forallb _ _) eqn:E; [|reflexivity].
      rewrite forallb_forall in E. exfalso. apply Hne, Qeq_bool_iff, E, in_seq. lia.
Qed.
End Props.
End PointProps.

(* ================================================================== *)
(** * Further properties of the tree, value layer *)

Module KDProps.
Import KD KDFacts.
Section Props.
Context {ElemType : Type} (N : nat).
Implicit Types (t l r cl cr : Node ElemType) (T : KDTree ElemType)
  (pt p cp q : Point) (value v cv : ElemType).

(** *** insert and the accessors *)

Lemma lookup_mkNode cp cl cr clvl cv q :
  lookup N (mkNode cp cl cr clvl cv) q =
  if Point_eqb N cp q then Some cv
  else if Qltb (coord q (clvl mod N)) (coord cp (clvl mod N))
       then if is_NULL cl then None else lookup N cl q
       else if is_NULL cr then None else lookup N cr q.
Proof.
  unfold lookup. simpl. destruct (Point_eqb N cp q) eqn:E; [now rewrite E|].
  destruct (Qltb _ _).
  - destruct (is_NULL cl); [now rewrite E | reflexivity].
  - destruct (is_NULL cr); [now rewrite E | reflexivity].
Qed.

Lemma contains_lookup T q : contains N T q = bool_decide (is_Some (lookup N (root_ T) q)).
Proof.
  unfold contains, lookup. destruct (findNode N (root_ T) q) as [|p l r lvl v].
  - reflexivity.
  - destruct (Point_eqb N p q).
    + symmetry. apply bool_decide_eq_true. eauto.
    + symmetry. apply bool_decide_eq_false. intros [x Hx]. discriminate.
Qed.

Lemma at_lookup T q :
  at_ N T q = match lookup N (root_ T) q with
              | Some v => inr v
              | None => inl out_of_range
              end.
Proof.
  unfold at_, lookup, Point_neqb.
  destruct (findNode N (root_ T) q) as [|p l r lvl v]; [reflexivity|].
  now destruct (Point_eqb N p q).
Qed.


Lemma Point_eqb_neq_trans cp pt q :
  Point_eqb N cp pt = true -> Point_eqb N pt q = false -> Point_eqb N cp q = false.
Proof.
  intros H1 H2. destruct (Point_eqb N cp q) eqn:E; [|reflexivity].
  rewrite <- H2. symmetry. apply Point_eqb_trans with cp; [|exact E].
  now rewrite Point_eqb_sym.
Qed.

(** Overwriting the label of [pt] does not change what is read for another
    point. *)
Lemma lookup_set_value t pt q value :
  found N t pt = true -> Point_eqb N pt q = false ->
  lookup N (update_target N (set_value value) t pt) q = lookup N t q.
Proof.
  intros Hf Hne. induction t as [|cp cl IHl cr IHr clvl cv]; [reflexivity|].
  rewrite found_mkNode in Hf. simpl.
  destruct (Point_eqb N cp pt) eqn:E.
  - simpl. rewrite !lookup_mkNode.
    now rewrite (Point_eqb_neq_trans _ _ _ E Hne).
  - destruct (Qltb (coord pt (clvl mod N)) (coord cp (clvl mod N))).
    + destruct (is_NULL cl) eqn:En; [discriminate|].
      rewrite !lookup_mkNode.
      rewrite update_target_is_NULL, En; auto using set_value_is_NULL.
      now rewrite IHl.
    + destruct (is_NULL cr) eqn:En; [discriminate|].
      rewrite !lookup_mkNode.
      rewrite update_target_is_NULL, En; auto using set_value_is_NULL.
      now rewrite IHr.
Qed.

Lemma lookup_leaf pt value lvl q :
  Point_eqb N pt q = false -> lookup N (mkNode pt NULL NULL lvl value) q = None.
Proof.
  intros Hne. rewrite lookup_mkNode, Hne. simpl. now destruct (Qltb _ _).
Qed.

(** Attaching a node for [pt] does not change what is read for another
    point. *)
Lemma lookup_attach t pt q value :
  found N t pt = false -> Point_eqb N pt q = false ->
  lookup N (update_target N (attach N pt value) t pt) q = lookup N t q.
Proof.
  intros Hf Hne. induction t as [|cp cl IHl cr IHr clvl cv]; [reflexivity|].
  rewrite found_mkNode in Hf. simpl.
  destruct (Point_eqb N cp pt) eqn:E; [discriminate|].
  destruct (Qltb (coord pt (clvl mod N)) (coord cp (clvl mod N))) eqn:C.
  - destruct (is_NULL cl) eqn:En.
    + simpl. rewrite ?C. rewrite !lookup_mkNode, ?En. simpl.
      rewrite Hne. now destruct (Qltb (coord q ((clvl + 1) mod N)) _).
    + rewrite !lookup_mkNode.
      rewrite update_target_is_NULL, En; auto using attach_is_NULL.
      now rewrite IHl.
  - destruct (is_NULL cr) eqn:En.
    + simpl. rewrite ?C. rewrite !lookup_mkNode, ?En. simpl.
      rewrite Hne. now destruct (Qltb (coord q ((clvl + 1) mod N)) _).
    + rewrite !lookup_mkNode.
      rewrite update_target_is_NULL, En; auto using attach_is_NULL.
      now rewrite IHr.
Qed.

(** X6: in any tree, after [insert(pt, value)] the point is contained and
    [at(pt)] returns [value]. *)
Theorem insert_then_at T pt value :
  contains N (insert N T pt value) pt = true /\
  at_ N (insert N T pt value) pt = inr value.
Proof.
  destruct (findNode_insert N T pt value) as (p & l & r & lvl & F & E).
  unfold contains, at_, Point_neqb. now rewrite F, E.
Qed.

(** X7: in any tree, [insert(pt, value)] changes neither [contains] nor
    [at] for a point that is not [==] to [pt]. *)
Theorem insert_leaves_other_points T pt q value :
  Point_eqb N pt q = false ->
  contains N (insert N T pt value) q = contains N T q /\
  at_ N (insert N T pt value) q = at_ N T q.
Proof.
  intros Hne.
  assert (E : lookup N (root_ (insert N T pt value)) q = lookup N (root_ T) q).
  { rewrite insert_cases. destruct (is_NULL (root_ T)) eqn:En.
    - simpl. rewrite (lookup_leaf _ _ _ _ Hne).
      destruct (root_ T); [reflexivity | discriminate].
    - destruct (found N (root_ T) pt) eqn:Ef; simpl.
      + now apply lookup_set_value.
      + now apply lookup_attach. }
  rewrite !contains_lookup, !at_lookup, E. auto.
Qed.

(** X8: [insert] keeps the invariant of the class (axis invariant, no two
    equal points, [size_] = number of nodes); it adds one to the size and
    adds the point exactly when the point was not contained, and changes
    neither otherwise. *)
Theorem insert_keeps_invariant T pt value :
  0 < N -> tree_invariant N T ->
  tree_invariant N (insert N T pt value) /\
  if contains N T pt
  then size (insert N T pt value) = size T /\
       points (root_ (insert N T pt value)) = points (root_ T)
  else size (insert N T pt value) = size T + 1 /\
       Permutation (points (root_ (insert N T pt value))) (pt :: points (root_ T)).
Proof.
  intros HN (H1 & H2 & H3). split.
  - repeat split; [now apply axis_invariant_insert | now apply distinct_points_insert
                  | now apply size_insert].
  - rewrite contains_found, insert_cases. unfold size.
    destruct (is_NULL (root_ T)) eqn:En.
    + destruct (root_ T); [|discriminate]. simpl in *. rewrite H3. auto.
    + destruct (found N (root_ T) pt) eqn:Ef; simpl.
      * split; [reflexivity | apply points_set_value].
      * split; [reflexivity | now apply points_attach].
Qed.

(** *** Levels *)

Lemma levels_buildTree_fuel nth_element fuel (range : list (Point * ElemType)) d :
  levels_from d (buildTree_fuel N nth_element fuel range d).
Proof.
  revert range d. induction fuel as [|fuel IH]; intros range d; [exact I|].
  destruct (decide (range = [])) as [->|Hne]; [exact I|].
  rewrite buildTree_fuel_S by exact Hne. cbv zeta.
  destruct (_ !! _); [|exact I]. simpl.
  replace (d + 1) with (S d) by lia. auto.
Qed.

Lemma levels_set_value t pt value d :
  levels_from d t -> levels_from d (update_target N (set_value value) t pt).
Proof.
  revert d. induction t as [|cp cl IHl cr IHr clvl cv]; intros d; [trivial|].
  simpl. intros (H1 & H2 & H3).
  destruct (Point_eqb N cp pt); [simpl; auto|].
  destruct (Qltb _ _).
  - destruct (is_NULL cl); simpl; auto.
  - destruct (is_NULL cr); simpl; auto.
Qed.

Lemma levels_attach t pt value d :
  found N t pt = false ->
  levels_from d t -> levels_from d (update_target N (attach N pt value) t pt).
Proof.
  revert d. induction t as [|cp cl IHl cr IHr clvl cv]; intros d Hf; [trivial|].
  rewrite found_mkNode in Hf. simpl. intros (H1 & H2 & H3).
  destruct (Point_eqb N cp pt); [discriminate|].
  destruct (Qltb (coord pt (clvl mod N)) (coord cp (clvl mod N))).
  - destruct (is_NULL cl); simpl; [|auto].
    repeat split; auto. lia.
  - destruct (is_NULL cr); simpl; [|auto].
    repeat split; auto. lia.
Qed.

Lemma levels_insert T pt value :
  levels_from 0 (root_ T) -> levels_from 0 (root_ (insert N T pt value)).
Proof.
  intros H. rewrite insert_cases. destruct (is_NULL (root_ T)); [simpl; auto|].
  destruct (found N (root_ T) pt) eqn:Ef; simpl.
  - now apply levels_set_value.
  - now apply levels_attach.
Qed.

(** X9: after bulk construction and any inserts, with any [nth_element],
    the [level] of every node is its depth: the root has level 0 and a
    child has its parent's level plus one. *)
Theorem levels_are_depths nth_element (pts ops : list (Point * ElemType)) :
  levels_from 0 (root_ (inserts N (KDTree_build N nth_element pts) ops)).
Proof.
  assert (H0 : levels_from 0 (root_ (KDTree_build N nth_element pts)))
    by apply levels_buildTree_fuel.
  revert H0. generalize (KDTree_build N nth_element pts).
  induction ops as [|[pt v] ops IH]; intros T HT; [exact HT|].
  simpl. apply IH. now apply levels_insert.
Qed.

(** *** What bulk construction guarantees *)

(** [walk_left] only passes entries whose coordinate equals the one at the
    position it started from. *)
Lemma walk_left_equal axis (range : list (Point * ElemType)) mid0 :
  forall j x y, walk_left axis range mid0 <= j -> j <= mid0 ->
    range !! j = Some x -> range !! mid0 = Some y ->
    (coord (fst x) axis == coord (fst y) axis)%Q.
Proof.
  induction mid0 as [|k IH]; intros j x y Hj1 Hj2 Hx Hy.
  - assert (j = 0) by lia. subst. rewrite Hx in Hy. injection Hy as ->. reflexivity.
  - simpl in Hj1. rewrite Hy in Hj1.
    destruct (decide (j = S k)) as [->|Hne].
    { rewrite Hx in Hy. injection Hy as ->. reflexivity. }
    destruct (range !! k) as [a|] eqn:Ea; [|lia].
    destruct (Qeq_bool (coord (fst a) axis) (coord (fst y) axis)) eqn:E; [|lia].
    apply Qeq_bool_iff in E. rewrite <- E.
    apply (IH j x a); [exact Hj1 | lia | exact Hx | reflexivity].
Qed.

Lemma split_invariant_buildTree nth_element :
  nth_element_ok nth_element ->
  forall fuel (range : list (Point * ElemType)) currLevel,
    length range <= fuel ->
    split_invariant N (buildTree_fuel N nth_element fuel range currLevel).
Proof.
  intros Hok. induction fuel as [|fuel IH]; intros range currLevel Hlen; [exact I|].
  destruct (decide (range = [])) as [->|Hne]; [exact I|].
  assert (Hpos : 0 < length range) by (destruct range; [congruence | simpl; lia]).
  rewrite buildTree_fuel_S by exact Hne. cbv zeta.
  set (axis := currLevel mod N).
  set (mid0 := length range / 2).
  assert (Hmid0 : mid0 < length range) by (apply Nat.div_lt; lia).
  destruct (Hok axis range mid0 Hmid0) as (Hperm & Hbefore & Hafter).
  set (range1 := nth_element (cmp axis) range mid0) in *.
  pose proof (Permutation_length Hperm) as Hl1.
  pose proof (walk_left_le axis range1 mid0) as Hw.
  pose proof (walk_left_equal axis range1 mid0) as Heq.
  set (mid := walk_left axis range1 mid0) in *.
  destruct (lookup_lt_is_Some_2 range1 mid0) as [y Hy]; [lia|].
  destruct (range1 !! mid) as [m|] eqn:Em; [|exact I].
  assert (Hm : (coord (fst m) axis == coord (fst y) axis)%Q)
    by (apply (Heq mid m y); [lia | lia | exact Em | exact Hy]).
  simpl. fold axis. split_and!.
  - eapply Permutation_Forall.
    { symmetry. unfold points. apply Permutation_map.
      apply (buildTree_fuel_perm N nth_element Hok). rewrite length_take. lia. }
    apply List.Forall_forall. intros px Hin. apply in_map_iff in Hin.
    destruct Hin as (x & <- & Hin). apply list_elem_of_In in Hin.
    apply list_elem_of_lookup in Hin. destruct Hin as [i Hi].
    pose proof (lookup_lt_Some _ _ _ Hi) as Hlt. rewrite length_take in Hlt.
    rewrite lookup_take_lt in Hi by lia.
    specialize (Hbefore i mid0 x y ltac:(lia) ltac:(lia) Hi Hy).
    unfold cmp in Hbefore. apply Qltb_ge in Hbefore. lra.
  - eapply Permutation_Forall.
    { symmetry. unfold points. apply Permutation_map.
      apply (buildTree_fuel_perm N nth_element Hok). rewrite length_drop. lia. }
    apply List.Forall_forall. intros px Hin. apply in_map_iff in Hin.
    destruct Hin as (x & <- & Hin). apply list_elem_of_In in Hin.
    apply list_elem_of_lookup in Hin. destruct Hin as [i Hi].
    rewrite lookup_drop in Hi.
    destruct (le_lt_dec (mid + 1 + i) mid0) as [Hle|Hgt].
    + pose proof (Heq (mid + 1 + i) x y ltac:(lia) Hle Hi Hy). lra.
    + specialize (Hafter (mid + 1 + i) y x Hgt Hy Hi).
      unfold cmp in Hafter. apply Qltb_ge in Hafter. lra.
  - apply IH. rewrite length_take. lia.
  - apply IH. rewrite length_drop. lia.
Qed.

(** X10: with any [nth_element] that meets the standard, bulk construction
    makes exactly one node per pair of the collection, [size()] is the
    number of nodes, and at every node the left subtree is at or below the
    node on the splitting coordinate and the right subtree at or above
    it. *)
Theorem KDTree_build_guarantees nth_element (pts : list (Point * ElemType)) :
  nth_element_ok nth_element ->
  Permutation (bindings (root_ (KDTree_build N nth_element pts))) pts /\
  size (KDTree_build N nth_element pts)
  = length (bindings (root_ (KDTree_build N nth_element pts))) /\
  split_invariant N (root_ (KDTree_build N nth_element pts)).
Proof.
  intros Hok. pose proof (KDTree_build_perm N nth_element pts Hok) as Hp.
  split; [exact Hp|]. split.
  - unfold size. simpl. symmetry. apply (Permutation_length Hp).
  - now apply split_invariant_buildTree.
Qed.

(** *** Balance *)

Lemma filter_length_two {A} (f : A -> bool) (l : list A) i j x y :
  i < j -> l !! i = Some x -> l !! j = Some y -> f x = true -> f y = true ->
  2 <= length (List.filter f l).
Proof.
  intros Hij Hx Hy Hfx Hfy.
  rewrite <- (take_drop_middle l i x Hx).
  rewrite List.filter_app, length_app. simpl. rewrite Hfx. simpl.
  assert (Hy' : drop (S i) l !! (j - S i) = Some y).
  { rewrite lookup_drop. now replace (S i + (j - S i)) with j by lia. }
  rewrite <- (take_drop_middle _ _ y Hy').
  rewrite List.filter_app, length_app. simpl. rewrite Hfy. simpl. lia.
Qed.

Lemma filter_length_sublist {A} (f : A -> bool) (l k : list A) :
  sublist l k -> length (List.filter f l) <= length (List.filter f k).
Proof.
  induction 1 as [|x l k _ IH|x l k _ IH]; simpl; [lia | |].
  - destruct (f x); simpl; lia.
  - destruct (f x); simpl; lia.
Qed.

Lemma filter_length_perm {A} (f : A -> bool) (l k : list A) :
  Permutation l k -> length (List.filter f l) = length (List.filter f k).
Proof.
  induction 1 as [|x l k _ IH|x y l|l k m _ IH1 _ IH2]; simpl; [lia | | | lia].
  - destruct (f x); simpl; lia.
  - destruct (f x), (f y); simpl; lia.
Qed.

Lemma coordinates_differ_sub (l k : list (Point * ElemType)) :
  sublist l k -> coordinates_differ N k -> coordinates_differ N l.
Proof.
  intros Hs Hk axis c Ha. specialize (Hk axis c Ha).
  pose proof (filter_length_sublist (fun x => Qeq_bool (coord (fst x) axis) c) l k Hs). lia.
Qed.

Lemma coordinates_differ_perm (l k : list (Point * ElemType)) :
  Permutation l k -> coordinates_differ N l -> coordinates_differ N k.
Proof.
  intros Hp Hl axis c Ha. specialize (Hl axis c Ha).
  now rewrite <- (filter_length_perm _ l k Hp).
Qed.

Lemma pairwise_differ_spec axis (pts : list (Point * ElemType)) (c : Q) :
  pairwise_differ axis pts = true ->
  length (List.filter (fun x => Qeq_bool (coord (fst x) axis) c) pts) <= 1.
Proof.
  induction pts as [|x pts IH]; simpl; [lia|].
  rewrite andb_true_iff, forallb_forall. intros [Hx Hrest].
  specialize (IH Hrest).
  destruct (Qeq_bool (coord (fst x) axis) c) eqn:E; [|exact IH].
  simpl. apply Qeq_bool_iff in E.
  assert (Hnil : List.filter (fun y => Qeq_bool (coord (fst y) axis) c) pts = []).
  { destruct (List.filter _ pts) as [|y rest] eqn:Ef; [reflexivity|]. exfalso.
    assert (Hy : In y (List.filter (fun y => Qeq_bool (coord (fst y) axis) c) pts))
      by (rewrite Ef; now left).
    apply filter_In in Hy. destruct Hy as [Hy Hc]. apply Qeq_bool_iff in Hc.
    specialize (Hx y Hy). apply negb_true_iff in Hx.
    assert (Hxy : Qeq_bool (coord (fst x) axis) (coord (fst y) axis) = true).
    { apply Qeq_bool_iff. rewrite E, Hc. reflexivity. }
    congruence. }
  rewrite Hnil. simpl. lia.
Qed.

Lemma coordinates_differb_spec (pts : list (Point * ElemType)) :
  coordinates_differb N pts = true -> coordinates_differ N pts.
Proof.
  unfold coordinates_differb. rewrite forallb_forall. intros H axis c Ha.
  apply pairwise_differ_spec, H, in_seq. lia.
Qed.

(** With different coordinates [walk_left] stays where it starts. *)
Lemma walk_left_stays axis (range : list (Point * ElemType)) mid0 :
  axis < N -> coordinates_differ N range -> walk_left axis range mid0 = mid0.
Proof.
  intros Ha Hd. destruct mid0 as [|k]; [reflexivity|]. simpl.
  destruct (range !! k) as [a|] eqn:Ea; [|reflexivity].
  destruct (range !! S k) as [b|] eqn:Eb; [|reflexivity].
  destruct (Qeq_bool (coord (fst a) axis) (coord (fst b) axis)) eqn:E; [|reflexivity].
  exfalso. specialize (Hd axis (coord (fst b) axis) Ha).
  pose proof (filter_length_two
                (fun x => Qeq_bool (coord (fst x) axis) (coord (fst b) axis))
                range k (S k) a b ltac:(lia) Ea Eb E) as H2.
  cbv beta in H2. rewrite (proj2 (Qeq_bool_iff _ _) (Qeq_refl _)) in H2.
  specialize (H2 eq_refl). lia.
Qed.

Lemma height_buildTree_fuel nth_element :
  nth_element_ok nth_element -> 0 < N ->
  forall fuel (range : list (Point * ElemType)) currLevel (hb : nat),
    length range <= fuel -> coordinates_differ N range -> length range < 2 ^ hb ->
    height (buildTree_fuel N nth_element fuel range currLevel) <= hb.
Proof.
  intros Hok HN. induction fuel as [|fuel IH]; intros range currLevel hb Hlen Hd Hb;
    [simpl; lia|].
  destruct (decide (range = [])) as [->|Hne]; [simpl; lia|].
  assert (Hpos : 0 < length range) by (destruct range; [congruence | simpl; lia]).
  rewrite buildTree_fuel_S by exact Hne. cbv zeta.
  set (axis := currLevel mod N).
  assert (Hax : axis < N) by (apply Nat.mod_upper_bound; lia).
  set (mid0 := length range / 2).
  assert (Hmid0 : mid0 < length range) by (apply Nat.div_lt; lia).
  destruct (Hok axis range mid0 Hmid0) as (Hperm & _ & _).
  set (range1 := nth_element (cmp axis) range mid0) in *.
  pose proof (Permutation_length Hperm) as Hl1.
  pose proof (coordinates_differ_perm _ _ Hperm Hd) as Hd1.
  rewrite (walk_left_stays axis range1 mid0 Hax Hd1).
  destruct (range1 !! mid0) as [m|] eqn:Em; [|simpl; lia].
  destruct hb as [|hb]; [simpl in Hb; lia|].
  assert (Hhalf : mid0 < 2 ^ hb).
  { unfold mid0. apply Nat.Div0.div_lt_upper_bound. simpl in Hb. lia. }
  assert (Hm2 : 2 * mid0 <= length range).
  { unfold mid0. apply Nat.Div0.mul_div_le. }
  assert (Hm3 : length range < 2 * mid0 + 2).
  { unfold mid0. pose proof (Nat.div_mod_eq (length range) 2).
    pose proof (Nat.mod_upper_bound (length range) 2 ltac:(lia)). lia. }
  simpl. apply le_n_S. apply Nat.max_lub.
  - apply IH.
    + rewrite length_take. lia.
    + eapply coordinates_differ_sub; [apply sublist_take | exact Hd1].
    + rewrite length_take. lia.
  - apply IH.
    + rewrite length_drop. lia.
    + eapply coordinates_differ_sub; [apply sublist_drop | exact Hd1].
    + rewrite length_drop. lia.
Qed.

(** X18: when no coordinate value occurs twice on any axis, bulk
    construction, with any [nth_element] that meets the standard, splits
    every range in the middle: the tree of [n >= 1] points has height at most
    [log2 n + 1]. *)
Theorem KDTree_build_is_balanced nth_element (pts : list (Point * ElemType)) :
  nth_element_ok nth_element -> 0 < N -> coordinates_differ N pts -> pts <> [] ->
  height (root_ (KDTree_build N nth_element pts)) <= Nat.log2 (length pts) + 1.
Proof.
  intros Hok HN Hd Hne.
  assert (Hpos : 0 < length pts) by (destruct pts; [congruence | simpl; lia]).
  apply (height_buildTree_fuel nth_element Hok HN); [lia | exact Hd|].
  replace (Nat.log2 (length pts) + 1) with (S (Nat.log2 (length pts))) by lia.
  apply Nat.log2_spec. exact Hpos.
Qed.

(** *** Bulk construction from points with different coordinates *)






(** *** The search *)

Lemma nearestNeighborRecurse_mkNode cp cl cr clvl cv key (pQueue : BoundedPQueue ElemType) :
  nearestNeighborRecurse N (mkNode cp cl cr clvl cv) key pQueue =
  let a := clvl mod N in
  let isLeftTree := Qltb (coord key a) (coord cp a) in
  let near := if isLeftTree then cl else cr in
  let far := if isLeftTree then cr else cl in
  let q1 := BoundedPQueue.enqueue cv (Distance N cp key) pQueue in
  let q2 := nearestNeighborRecurse N near key q1 in
  if (BoundedPQueue.size q2 <? BoundedPQueue.maxSize q2)
     || lt_priority (Qabs (coord key a - coord cp a)) (BoundedPQueue.worst q2)
  then nearestNeighborRecurse N far key q2
  else q2.
Proof. simpl. now destruct (Qltb _ _). Qed.

Lemma nearestNeighborRecurse_maxSize t key : forall (q0 : BoundedPQueue ElemType),
  BoundedPQueue.maxSize (nearestNeighborRecurse N t key q0) = BoundedPQueue.maxSize q0.
Proof.
  induction t as [|cp cl IHl cr IHr clvl cv]; intros q0; [reflexivity|].
  rewrite nearestNeighborRecurse_mkNode. cbv zeta.
  destruct (Qltb _ _); destruct (_ || _);
    rewrite ?IHl, ?IHr, ?IHl; apply BoundedPQueueFacts.enqueue_maxSize.
Qed.

Lemma nearestNeighborRecurse_wf t key : forall (q0 : BoundedPQueue ElemType),
  BoundedPQueue.wf q0 -> BoundedPQueue.wf (nearestNeighborRecurse N t key q0).
Proof.
  induction t as [|cp cl IHl cr IHr clvl cv]; intros q0 Hwf; [exact Hwf|].
  rewrite nearestNeighborRecurse_mkNode. cbv zeta.
  pose proof (BoundedPQueueFacts.wf_enqueue q0 cv (Distance N cp key) Hwf).
  destruct (Qltb _ _); destruct (_ || _); auto.
Qed.

Lemma enqueue_size (q0 : BoundedPQueue ElemType) value prio :
  BoundedPQueue.size q0 <= BoundedPQueue.maxSize q0 ->
  BoundedPQueue.size (BoundedPQueue.enqueue value prio q0)
  = Nat.min (BoundedPQueue.maxSize q0) (BoundedPQueue.size q0 + 1).
Proof.
  intros Hs. unfold BoundedPQueue.size at 1.
  rewrite BoundedPQueueProps.enqueue_take by exact Hs.
  rewrite length_take, BoundedPQueueFacts.multimap_insert_length.
  unfold BoundedPQueue.size. lia.
Qed.

(** The search stops adding entries only when the queue is full. *)
Lemma nearestNeighborRecurse_size t key : forall (q0 : BoundedPQueue ElemType),
  BoundedPQueue.size q0 <= BoundedPQueue.maxSize q0 ->
  BoundedPQueue.size (nearestNeighborRecurse N t key q0)
  = Nat.min (BoundedPQueue.maxSize q0) (BoundedPQueue.size q0 + length (bindings t)).
Proof.
  induction t as [|cp cl IHl cr IHr clvl cv]; intros q0 Hs.
  - simpl. lia.
  - rewrite nearestNeighborRecurse_mkNode. cbv zeta.
    pose proof (enqueue_size q0 cv (Distance N cp key) Hs) as H1.
    pose proof (BoundedPQueueFacts.enqueue_maxSize q0 cv (Distance N cp key)) as M1.
    set (q1 := BoundedPQueue.enqueue cv (Distance N cp key) q0) in *.
    assert (Hs1 : BoundedPQueue.size q1 <= BoundedPQueue.maxSize q1) by lia.
    simpl bindings. rewrite length_cons, length_app.
    destruct (Qltb (coord key (clvl mod N)) (coord cp (clvl mod N))).
    + pose proof (IHl q1 Hs1) as H2.
      pose proof (nearestNeighborRecurse_maxSize cl key q1) as M2.
      set (q2 := nearestNeighborRecurse N cl key q1) in *.
      assert (Hs2 : BoundedPQueue.size q2 <= BoundedPQueue.maxSize q2) by lia.
      pose proof (IHr q2 Hs2) as H3.
      destruct (BoundedPQueue.size q2 <? BoundedPQueue.maxSize q2) eqn:Elt; simpl.
      * rewrite H3. lia.
      * apply Nat.ltb_ge in Elt. destruct (lt_priority _ _); [rewrite H3|]; lia.
    + pose proof (IHr q1 Hs1) as H2.
      pose proof (nearestNeighborRecurse_maxSize cr key q1) as M2.
      set (q2 := nearestNeighborRecurse N cr key q1) in *.
      assert (Hs2 : BoundedPQueue.size q2 <= BoundedPQueue.maxSize q2) by lia.
      pose proof (IHl q2 Hs2) as H3.
      destruct (BoundedPQueue.size q2 <? BoundedPQueue.maxSize q2) eqn:Elt; simpl.
      * rewrite H3. lia.
      * apply Nat.ltb_ge in Elt. destruct (lt_priority _ _); [rewrite H3|]; lia.
Qed.

Lemma enqueue_submseteq (q0 : BoundedPQueue ElemType) value prio :
  BoundedPQueue.size q0 <= BoundedPQueue.maxSize q0 ->
  BoundedPQueue.elems (BoundedPQueue.enqueue value prio q0)
  ⊆+ (prio, value) :: BoundedPQueue.elems q0.
Proof.
  intros Hs. rewrite BoundedPQueueProps.enqueue_take by exact Hs.
  rewrite <- (BoundedPQueueFacts.multimap_insert_perm (prio, value)).
  apply sublist_submseteq, sublist_take.
Qed.

(** Every entry of the queue after the search was in the queue before or is
    the entry of a node, and no node is entered twice. *)
Lemma nearestNeighborRecurse_submseteq t key : forall (q0 : BoundedPQueue ElemType),
  BoundedPQueue.size q0 <= BoundedPQueue.maxSize q0 ->
  BoundedPQueue.elems (nearestNeighborRecurse N t key q0)
  ⊆+ entries N t key ++ BoundedPQueue.elems q0.
Proof.
  induction t as [|cp cl IHl cr IHr clvl cv]; intros q0 Hs; [reflexivity|].
  rewrite nearestNeighborRecurse_mkNode. cbv zeta.
  pose proof (enqueue_size q0 cv (Distance N cp key) Hs) as H1.
  pose proof (BoundedPQueueFacts.enqueue_maxSize q0 cv (Distance N cp key)) as M1.
  pose proof (enqueue_submseteq q0 cv (Distance N cp key) Hs) as S1.
  set (q1 := BoundedPQueue.enqueue cv (Distance N cp key) q0) in *.
  assert (Hs1 : BoundedPQueue.size q1 <= BoundedPQueue.maxSize q1) by lia.
  unfold entries in *. simpl bindings. rewrite map_cons, map_app. simpl fst. simpl snd.
  set (e := (Distance N cp key, cv)) in *.
  set (el := map (fun b => (Distance N (fst b) key, snd b)) (bindings cl)) in *.
  set (er := map (fun b => (Distance N (fst b) key, snd b)) (bindings cr)) in *.
  rewrite <- app_comm_cons.
  destruct (Qltb (coord key (clvl mod N)) (coord cp (clvl mod N))).
  - pose proof (IHl q1 Hs1) as S2.
    pose proof (nearestNeighborRecurse_size cl key q1 Hs1) as H2.
    pose proof (nearestNeighborRecurse_maxSize cl key q1) as M2.
    set (q2 := nearestNeighborRecurse N cl key q1) in *.
    assert (Hs2 : BoundedPQueue.size q2 <= BoundedPQueue.maxSize q2) by lia.
    assert (S2' : BoundedPQueue.elems q2 ⊆+ e :: el ++ BoundedPQueue.elems q0).
    { etrans; [exact S2|]. etrans; [apply submseteq_skips_l; exact S1|].
      apply Permutation_submseteq. symmetry. apply Permutation_middle. }
    destruct (_ || _).
    + etrans; [apply (IHr q2 Hs2)|].
      etrans; [apply submseteq_skips_l; exact S2'|].
      apply Permutation_submseteq.
      rewrite <- Permutation_middle. apply perm_skip.
      rewrite <- app_assoc. apply Permutation_app_swap_app.
    + etrans; [exact S2'|]. apply submseteq_skip.
      rewrite <- app_assoc. apply submseteq_skips_l.
      apply submseteq_inserts_l. reflexivity.
  - pose proof (IHr q1 Hs1) as S2.
    pose proof (nearestNeighborRecurse_size cr key q1 Hs1) as H2.
    pose proof (nearestNeighborRecurse_maxSize cr key q1) as M2.
    set (q2 := nearestNeighborRecurse N cr key q1) in *.
    assert (Hs2 : BoundedPQueue.size q2 <= BoundedPQueue.maxSize q2) by lia.
    assert (S2' : BoundedPQueue.elems q2 ⊆+ e :: er ++ BoundedPQueue.elems q0).
    { etrans; [exact S2|]. etrans; [apply submseteq_skips_l; exact S1|].
      apply Permutation_submseteq. symmetry. apply Permutation_middle. }
    destruct (_ || _).
    + etrans; [apply (IHl q2 Hs2)|].
      etrans; [apply submseteq_skips_l; exact S2'|].
      apply Permutation_submseteq.
      rewrite <- Permutation_middle. apply perm_skip.
      now rewrite <- app_assoc.
    + etrans; [exact S2'|]. apply submseteq_skip.
      rewrite <- app_assoc. apply submseteq_inserts_l. reflexivity.
Qed.

(** X11: for every tree, key and [k], the queue of the search ends with
    min(k, number of nodes) entries in ascending order of priority, each
    the squared distance and label of a node, no node twice. *)
Theorem search_retains_min_k_nodes T key (k : nat) :
  let found_q := nearestNeighborRecurse N (root_ T) key (BoundedPQueue.create k) in
  BoundedPQueue.size found_q = Nat.min k (length (bindings (root_ T))) /\
  BoundedPQueue.elems found_q ⊆+ entries N (root_ T) key /\
  BoundedPQueue.sorted (BoundedPQueue.elems found_q).
Proof.
  intros found_q. unfold found_q. split; [|split].
  - rewrite nearestNeighborRecurse_size; [reflexivity|].
    unfold BoundedPQueue.size, BoundedPQueue.maxSize. simpl. lia.
  - pose proof (nearestNeighborRecurse_submseteq (root_ T) key (BoundedPQueue.create k)) as H.
    simpl in H. rewrite app_nil_r in H. apply H.
    unfold BoundedPQueue.size, BoundedPQueue.maxSize. simpl. lia.
  - apply nearestNeighborRecurse_wf. split; [constructor|].
    unfold BoundedPQueue.size, BoundedPQueue.maxSize. simpl. lia.
Qed.

Lemma fold_multimap_insert_perm (f : Point * ElemType -> Q * ElemType) bs : forall L,
  Permutation
    (fold_left (fun acc b => BoundedPQueue.multimap_insert (f b) acc) bs L)
    (map f bs ++ L).
Proof.
  induction bs as [|b bs IH]; intros L; [reflexivity|].
  simpl. rewrite IH, BoundedPQueueFacts.multimap_insert_perm.
  symmetry. apply Permutation_middle.
Qed.

(** X12: when [k] is at least the number of nodes, nothing is pruned away
    for good: the queue of the search ends with the entry of every node,
    which are also the entries the linear scan keeps. *)
Theorem search_retains_all_when_k_large T key (k : nat) :
  length (bindings (root_ T)) <= k ->
  let found_q := nearestNeighborRecurse N (root_ T) key (BoundedPQueue.create k) in
  Permutation (BoundedPQueue.elems found_q) (entries N (root_ T) key) /\
  Permutation (BoundedPQueue.elems found_q) (linear_scan N (root_ T) key k).
Proof.
  intros Hk found_q.
  assert (Hq : BoundedPQueue.size (BoundedPQueue.create (T:=ElemType) k)
               <= BoundedPQueue.maxSize (BoundedPQueue.create (T:=ElemType) k)).
  { unfold BoundedPQueue.size, BoundedPQueue.maxSize. simpl. lia. }
  assert (H1 : Permutation (BoundedPQueue.elems found_q) (entries N (root_ T) key)).
  { apply submseteq_length_Permutation.
    - pose proof (nearestNeighborRecurse_submseteq (root_ T) key _ Hq) as H.
      simpl in H. now rewrite app_nil_r in H.
    - pose proof (nearestNeighborRecurse_size (root_ T) key _ Hq) as H.
      unfold BoundedPQueue.size in H. fold found_q in H. rewrite H.
      unfold entries. rewrite length_map. simpl. lia. }
  split; [exact H1|]. rewrite H1. unfold linear_scan.
  rewrite take_ge.
  - rewrite fold_multimap_insert_perm, app_nil_r. reflexivity.
  - rewrite (Permutation_length (fold_multimap_insert_perm _ _ _)).
    rewrite app_nil_r, length_map. exact Hk.
Qed.

(** *** The vote *)

Context `{EqDecision ElemType} `{Inhabited ElemType}.
Implicit Types (counter : list (ElemType * Z)) (es : list (Q * ElemType)).

Lemma votes_cons x (e : Q * ElemType) es :
  votes x (e :: es) = (if decide (snd e = x) then 1 else 0) + votes x es.
Proof.
  unfold votes. simpl. unfold filter. simpl.
  destruct (decide (snd e = x)) as [E|E].
  - rewrite bool_decide_eq_true_2 by exact E. reflexivity.
  - rewrite bool_decide_eq_false_2 by exact E. reflexivity.
Qed.

Lemma votes_pos x es : 0 < votes x es -> exists d : Q, In (d, x) es.
Proof.
  induction es as [|[d v] es IH]; [unfold votes; simpl; lia|].
  rewrite votes_cons. simpl. destruct (decide (v = x)) as [->|E].
  - intros _. exists d. now left.
  - intros Hpos. destruct (IH Hpos) as [d' Hd']. exists d'. now right.
Qed.

Lemma counter_get_incr x v counter :
  counter_get x (incr v counter)
  = (counter_get x counter + (if decide (v = x) then 1 else 0))%Z.
Proof.
  induction counter as [|[y c] rest IH]; simpl.
  - destruct (decide (x = v)), (decide (v = x)); try congruence; lia.
  - destruct (decide (v = y)) as [->|E]; simpl.
    + destruct (decide (x = y)) as [->|E'].
      * rewrite decide_True by reflexivity. lia.
      * rewrite decide_False by congruence. lia.
    + destruct (decide (x = y)) as [->|E'].
      * rewrite decide_False by exact E. lia.
      * exact IH.
Qed.

Lemma incr_keys x v counter :
  In x (map fst (incr v counter)) -> x = v \/ In x (map fst counter).
Proof.
  induction counter as [|[y c] rest IH]; simpl.
  - intros [<-|[]]. now left.
  - destruct (decide (v = y)) as [->|E]; simpl.
    + tauto.
    + intros [<-|Hin]; [tauto|]. destruct (IH Hin); tauto.
Qed.

Lemma incr_NoDup v counter :
  List.NoDup (map fst counter) -> List.NoDup (map fst (incr v counter)).
Proof.
  induction counter as [|[y c] rest IH]; simpl; intros Hnd.
  - repeat constructor. intros [].
  - inversion Hnd as [|? ? Hy Hrest]; subst.
    destruct (decide (v = y)) as [->|E]; simpl.
    + now constructor.
    + constructor; [|now apply IH].
      intros Hin. apply incr_keys in Hin. destruct Hin; [congruence | contradiction].
Qed.

Lemma incr_positive v counter :
  Forall (fun e => (1 <= snd e)%Z) counter ->
  Forall (fun e => (1 <= snd e)%Z) (incr v counter).
Proof.
  induction 1 as [|[y c] rest Hy Hrest IH]; simpl.
  - constructor; [simpl; lia | constructor].
  - destruct (decide (v = y)); constructor; simpl in *; auto; lia.
Qed.

Lemma counter_get_In x m counter :
  List.NoDup (map fst counter) -> In (x, m) counter -> counter_get x counter = m.
Proof.
  induction counter as [|[y c] rest IH]; simpl; [tauto|].
  intros Hnd. inversion Hnd as [|? ? Hy Hrest]; subst.
  intros [[= -> ->]|Hin].
  - now rewrite decide_True.
  - rewrite decide_False; [now apply IH|].
    intros ->. apply Hy. apply in_map_iff. now exists (y, m).
Qed.

Lemma counter_get_nonzero x counter :
  counter_get x counter <> 0%Z -> In (x, counter_get x counter) counter.
Proof.
  induction counter as [|[y c] rest IH]; simpl; [congruence|].
  destruct (decide (x = y)) as [->|E]; [now left | right; now apply IH].
Qed.

(** The loop of [kNNValue] that empties the queue, as a fold over its
    entries. *)
Lemma count_loop_fold es : forall fuel maxS counter,
  length es <= fuel ->
  count_loop fuel {| BoundedPQueue.elems := es; BoundedPQueue.maximumSize := maxS |} counter
  = fold_left (fun c e => incr (snd e) c) es counter.
Proof.
  induction es as [|[d v] es IH]; intros fuel maxS counter Hf.
  - destruct fuel; reflexivity.
  - destruct fuel as [|fuel]; [simpl in Hf; lia|].
    simpl. apply IH. simpl in Hf. lia.
Qed.

Lemma fold_incr_spec es : forall counter,
  List.NoDup (map fst counter) ->
  Forall (fun e => (1 <= snd e)%Z) counter ->
  let counter' := fold_left (fun c e => incr (snd e) c) es counter in
  List.NoDup (map fst counter') /\
  Forall (fun e => (1 <= snd e)%Z) counter' /\
  forall x, counter_get x counter' = (counter_get x counter + Z.of_nat (votes x es))%Z.
Proof.
  induction es as [|e es IH]; intros counter Hnd Hpos; simpl.
  - split; [exact Hnd|]. split; [exact Hpos|]. intros x. unfold votes. simpl. lia.
  - destruct (IH (incr (snd e) counter) (incr_NoDup _ _ Hnd) (incr_positive _ _ Hpos))
      as (H1 & H2 & H3).
    split; [exact H1|]. split; [exact H2|].
    intros x. rewrite H3, counter_get_incr, votes_cons.
    destruct (decide (snd e = x)); lia.
Qed.

(** The last loop of [kNNValue]: the answer is the start value when no
    count exceeds [cnt], else a key whose count is the largest. *)
Lemma most_frequent_spec counter : forall result cnt,
  (most_frequent counter result cnt = result /\
   Forall (fun e => (snd e <= cnt)%Z) counter) \/
  (exists m, In (most_frequent counter result cnt, m) counter /\ (cnt < m)%Z /\
             Forall (fun e => (snd e <= m)%Z) counter).
Proof.
  induction counter as [|[x c] rest IH]; intros result cnt; simpl.
  - left. split; [reflexivity | constructor].
  - destruct (Z.ltb_spec cnt c) as [Hlt|Hge].
    + right. destruct (IH x c) as [[E Hall]|(m & Hin & Hm & Hall)].
      * exists c. rewrite E. split; [now left|]. split; [exact Hlt|].
        constructor; [simpl; lia | exact Hall].
      * exists m. split; [now right|]. split; [lia|].
        constructor; [simpl; lia | exact Hall].
    + destruct (IH result cnt) as [[E Hall]|(m & Hin & Hm & Hall)].
      * left. split; [exact E|]. constructor; [simpl; lia | exact Hall].
      * right. exists m. split; [now right|]. split; [exact Hm|].
        constructor; [simpl; lia | exact Hall].
Qed.

(** The vote over a queue that is not empty returns a label of the queue
    that no other label outnumbers. *)
Lemma majority_spec (q0 : BoundedPQueue ElemType) :
  BoundedPQueue.elems q0 <> [] ->
  (exists d : Q, In (d, majority q0) (BoundedPQueue.elems q0)) /\
  forall x, votes x (BoundedPQueue.elems q0) <= votes (majority q0) (BoundedPQueue.elems q0).
Proof.
  intros Hne. unfold majority. destruct q0 as [es maxS]. simpl in *.
  unfold BoundedPQueue.size. simpl.
  rewrite count_loop_fold by lia.
  destruct (fold_incr_spec es [] (List.NoDup_nil _) (List.Forall_nil _)) as (Hnd & Hpos & Hget0).
  set (counter := fold_left (fun c e => incr (snd e) c) es []) in *.
  assert (Hget : forall x, counter_get x counter = Z.of_nat (votes x es)).
  { intros x. rewrite Hget0. simpl. lia. }
  clear Hget0.
  assert (Hin : forall x m, In (x, m) counter -> m = Z.of_nat (votes x es) /\ (1 <= m)%Z).
  { intros x m Hx. split.
    - rewrite <- Hget. symmetry. now apply counter_get_In.
    - rewrite List.Forall_forall in Hpos. apply (Hpos (x, m) Hx). }
  destruct (most_frequent_spec counter inhabitant (-1)%Z) as [[_ Hall]|(m & Hm & _ & Hall)].
  - exfalso. destruct es as [|[d v] es']; [congruence|].
    assert (Hv : counter_get v counter <> 0%Z).
    { rewrite Hget, votes_cons. simpl. rewrite decide_True by reflexivity. lia. }
    apply counter_get_nonzero in Hv. destruct (Hin _ _ Hv) as [_ Hge].
    rewrite List.Forall_forall in Hall. specialize (Hall _ Hv). simpl in Hall. lia.
  - destruct (Hin _ _ Hm) as [Em Hge]. split.
    + apply votes_pos. lia.
    + intros x. destruct (Nat.eq_dec (votes x es) 0) as [E0|Hx]; [lia|].
      assert (Hv : counter_get x counter <> 0%Z) by (rewrite Hget; lia).
      apply counter_get_nonzero in Hv.
      rewrite List.Forall_forall in Hall. specialize (Hall _ Hv). simpl in Hall.
      rewrite Hget in Hall. lia.
Qed.

(** X13: on a tree that is not empty and for [k >= 1], [kNNValue] returns
    the label of a node of the tree, and among the entries the search
    retained no label occurs more often than the returned one. *)
Theorem kNNValue_returns_a_most_frequent_label T key (k : nat) :
  empty T = false -> is_NULL (root_ T) = false -> 0 < k ->
  let found_q := nearestNeighborRecurse N (root_ T) key (BoundedPQueue.create k) in
  (exists p, In (p, kNNValue N T key k) (bindings (root_ T))) /\
  forall x, votes x (BoundedPQueue.elems found_q)
            <= votes (kNNValue N T key k) (BoundedPQueue.elems found_q).
Proof.
  intros He Hroot Hk found_q.
  assert (Hq : BoundedPQueue.size (BoundedPQueue.create (T:=ElemType) k)
               <= BoundedPQueue.maxSize (BoundedPQueue.create (T:=ElemType) k)).
  { unfold BoundedPQueue.size, BoundedPQueue.maxSize. simpl. lia. }
  assert (Hne : BoundedPQueue.elems found_q <> []).
  { pose proof (nearestNeighborRecurse_size (root_ T) key _ Hq) as Hs.
    fold found_q in Hs. unfold BoundedPQueue.size, BoundedPQueue.maxSize in Hs.
    simpl in Hs. intros E. rewrite E in Hs. simpl in Hs.
    destruct (root_ T); [discriminate|]. simpl in Hs. lia. }
  assert (Ek : kNNValue N T key k = majority found_q).
  { unfold kNNValue. now rewrite He. }
  rewrite Ek. destruct (majority_spec found_q Hne) as [[d Hd] Hmax].
  split; [|exact Hmax].
  pose proof (nearestNeighborRecurse_submseteq (root_ T) key _ Hq) as Hsub.
  fold found_q in Hsub. simpl in Hsub. rewrite app_nil_r in Hsub.
  apply list_elem_of_In in Hd.
  pose proof (elem_of_submseteq _ _ _ Hd Hsub) as Hin.
  apply list_elem_of_In in Hin. unfold entries in Hin. apply in_map_iff in Hin.
  destruct Hin as ([p v] & [= _ <-] & Hb). exists p. exact Hb.
Qed.

(** *** Searching for a stored point with k = 1 *)








End Props.
End KDProps.

(* ================================================================== *)
(** * Further properties of the tree, store layer *)

Module StoreProps.
Import Store StoreFacts.
Section Props.
Context {ElemType : Type} (N : nat).
Implicit Types (h : gmap loc (Node ElemType)) (p : option loc) (c : loc)
  (t tl tr : KD.Node ElemType) (F Fl Fr : gset loc) (st : state ElemType)
  (n : Node ElemType) (pt : Point) (v : ElemType).

#[local] Arguments fuel_of : simpl never.

Lemma repr_child h (o : option loc) t F c :
  repr h o t F -> c ∉ F -> forall l, o = Some l -> l <> c /\ is_Some (h !! l).
Proof.
  intros Hr Hc l ->. apply repr_Some_inv in Hr.
  destruct Hr as (n & ? & ? & ? & ? & Hl & _ & _ & _ & _ & _ & -> & _).
  split; [set_solver | eauto].
Qed.

(** [findNode] on the store returns the node [findNode] of the value layer
    returns. *)
Lemma findNode_repr pt t : forall fuel h p F,
  repr h p t F -> KD.height t < fuel ->
  match KD.findNode N t pt with
  | KD.NULL => p = None /\ findNode N fuel h p pt = Some None
  | KD.mkNode pp _ _ lvl vv =>
      exists c n,
        findNode N fuel h p pt = Some (Some c) /\ c ∈ F /\ h !! c = Some n /\
        point n = pp /\ level n = lvl /\ value n = vv /\
        (forall l, left n = Some l -> l <> c /\ is_Some (h !! l)) /\
        (forall r, right n = Some r -> r <> c /\ is_Some (h !! r))
  end.
Proof.
  induction t as [|pp tl IHl tr IHr lvl vv]; intros fuel h p F Hr Hfuel.
  - destruct fuel as [|fuel]; [simpl in Hfuel; lia|].
    inversion Hr; subst. simpl. auto.
  - destruct fuel as [|fuel]; [lia|]. simpl in Hfuel.
    destruct p as [c0|]; [|apply repr_None_inv in Hr; destruct Hr; discriminate].
    apply repr_Some_inv in Hr.
    destruct Hr as (n0 & tl' & tr' & Fl & Fr & Hc & Hl & Hr & Hcl & Hcr & Hd & -> & Ht).
    injection Ht as -> <- <- -> ->.
    assert (Hstop : exists c n,
        Some (Some c0) = Some (Some c) /\ c ∈ {[c0]} ∪ Fl ∪ Fr /\ h !! c = Some n /\
        point n = point n0 /\ level n = level n0 /\ value n = value n0 /\
        (forall l, left n = Some l -> l <> c /\ is_Some (h !! l)) /\
        (forall r, right n = Some r -> r <> c /\ is_Some (h !! r))).
    { exists c0, n0. split_and!; try done; [set_solver | |].
      - now apply (repr_child h (left n0) tl Fl).
      - now apply (repr_child h (right n0) tr Fr). }
    simpl. rewrite Hc. simpl.
    destruct (Point_eqb N (point n0) pt); [exact Hstop|].
    destruct (Qltb (coord pt (level n0 mod N)) (coord (point n0) (level n0 mod N))).
    + destruct (left n0) as [cl|] eqn:El.
      * assert (En : KD.is_NULL tl = false).
        { destruct (KD.is_NULL tl) eqn:E; [|reflexivity].
          apply (repr_is_NULL _ _ _ _ Hl) in E. discriminate. }
        rewrite En. specialize (IHl fuel h (Some cl) Fl Hl ltac:(lia)).
        destruct (KD.findNode N tl pt) as [|fp fl fr flvl fv].
        -- destruct IHl. discriminate.
        -- destruct IHl as (c & n & H1 & H2 & H3). exists c, n. split; [exact H1|].
           split; [set_solver | exact H3].
      * apply repr_None_inv in Hl. destruct Hl as [-> ->]. simpl.
        exact Hstop.
    + destruct (right n0) as [cr|] eqn:Er.
      * assert (En : KD.is_NULL tr = false).
        { destruct (KD.is_NULL tr) eqn:E; [|reflexivity].
          apply (repr_is_NULL _ _ _ _ Hr) in E. discriminate. }
        rewrite En. specialize (IHr fuel h (Some cr) Fr Hr ltac:(lia)).
        destruct (KD.findNode N tr pt) as [|fp fl fr flvl fv].
        -- destruct IHr. discriminate.
        -- destruct IHr as (c & n & H1 & H2 & H3). exists c, n. split; [exact H1|].
           split; [set_solver | exact H3].
      * apply repr_None_inv in Hr. destruct Hr as [-> ->]. simpl.
        exact Hstop.
Qed.

(** X15: for an object of the store that stands for the tree [T] of the
    value layer, [contains] and [at] return what they return on [T], and
    [insert] leaves the object standing for [insert T]; [insert] writes only
    to nodes of the object and to fresh locations. *)
Theorem members_agree_with_value_layer st a (T : KD.KDTree ElemType) F pt v :
  holds st a T F ->
  contains N st a pt = Some (KD.contains N T pt) /\
  at_ N st a pt = Some (KD.at_ N T pt) /\
  exists st' F',
    insert N st a pt v = Some st' /\
    holds st' a (KD.insert N T pt v) F' /\
    F ⊆ F' /\ (F' ∖ F) ## dom (nodes st) /\
    (forall l, l ∉ F -> l ∈ dom (nodes st) -> nodes st' !! l = nodes st !! l).
Proof.
  intros Ha. pose proof Ha as (o & Ho & Hr & Hs).
  pose proof (findNode_repr pt _ _ _ _ _ Hr (repr_fuel _ _ _ _ Hr)) as Hf.
  split; [|split].
  - unfold contains, KD.contains. rewrite Ho. cbn.
    destruct (KD.findNode N (KD.root_ T) pt) as [|pp fl fr lvl vv].
    + destruct Hf as [_ ->]. reflexivity.
    + destruct Hf as (c & n & -> & _ & Hn & <- & _). cbn. rewrite Hn. reflexivity.
  - unfold at_, KD.at_. rewrite Ho. cbn.
    destruct (KD.findNode N (KD.root_ T) pt) as [|pp fl fr lvl vv].
    + destruct Hf as [_ ->]. reflexivity.
    + destruct Hf as (c & n & -> & _ & Hn & <- & _ & <- & _). cbn. rewrite Hn. cbn.
      now destruct (Point_neqb N (point n) pt).
  - destruct (insert_holds N st a T F pt v Ha) as (st' & F' & H1 & H2 & H3 & H4 & H5 & _).
    exists st', F'. auto.
Qed.

(** X16: the destructor frees exactly the nodes of its object and removes
    the object; every other node is as before, and every other object whose
    nodes are disjoint from the freed ones stands for the same tree as
    before. *)
Theorem destroy_frees_own_nodes st c (Tc : KD.KDTree ElemType) Fc :
  holds st c Tc Fc ->
  exists st',
    destroy st c = Some st' /\
    dom (nodes st') = dom (nodes st) ∖ Fc /\
    (forall l, l ∉ Fc -> nodes st' !! l = nodes st !! l) /\
    objects st' = delete c (objects st) /\
    forall b (Tb : KD.KDTree ElemType) Fb,
      b <> c -> holds st b Tb Fb -> Fb ## Fc -> holds st' b Tb Fb.
Proof.
  intros (o & Ho & Hr & Hs). unfold destroy. rewrite Ho. cbn.
  destruct (freeResource_spec _ _ _ _ _ Hr (repr_fuel _ _ _ _ Hr))
    as (h' & Ef & Hdom & Hag).
  rewrite Ef. cbn. eexists. split; [reflexivity|]. cbn.
  split_and!; [exact Hdom | exact Hag | reflexivity |].
  intros b Tb Fb Hb Hholds Hdisj.
  eapply holds_frame; [exact Hholds | cbn; now rewrite lookup_delete_ne |].
  intros l Hl. cbn. apply Hag. set_solver.
Qed.

Lemma repr_mkNode_inv h p pp tl tr lvl vv F :
  repr h p (KD.mkNode pp tl tr lvl vv) F ->
  exists c n, p = Some c /\ h !! c = Some n /\ point n = pp /\ value n = vv.
Proof.
  inversion 1 as [|c n tl' tr' Fl Fr F' Hc Hl Hr Hcl Hcr Hd HF]; subst.
  exists c, n. auto.
Qed.

(** X17: [operator[]] returns a reference into a node that holds a point
    [==] to [pt].  When [pt] is contained the store is unchanged and the
    reference reads what [at] returns; otherwise the store is the one
    [insert(pt, ElemType())] leaves. *)
Theorem index_refers_to_node_of_point st a (T : KD.KDTree ElemType) F pt dflt :
  holds st a T F ->
  exists l st' n,
    index N st a pt dflt = Some (l, st') /\
    nodes st' !! l = Some n /\
    Point_eqb N (point n) pt = true /\
    if KD.contains N T pt
    then st' = st /\ KD.at_ N T pt = inr (value n)
    else insert N st a pt dflt = Some st'.
Proof.
  intros Ha. pose proof Ha as (o & Ho & Hr & Hs).
  pose proof (findNode_repr pt _ _ _ _ _ Hr (repr_fuel _ _ _ _ Hr)) as Hf.
  unfold index, KD.contains, KD.at_. rewrite Ho. cbn.
  destruct (KD.findNode N (KD.root_ T) pt) as [|pp fl fr lvl vv] eqn:Ek.
  - destruct Hf as [_ Efn]. rewrite Efn. cbn.
    destruct (insert_holds N st a T F pt dflt Ha) as (st' & F' & Ei & Ha' & _).
    rewrite Ei. cbn. destruct Ha' as (o' & Ho' & Hr' & _). rewrite Ho'. cbn.
    unfold KD.insert in Hr'. rewrite Ek in Hr'. simpl in Hr'.
    apply repr_mkNode_inv in Hr'. destruct Hr' as (c & n & Hroot & Hn & Hp & _).
    rewrite Hroot. cbn. rewrite Hn. cbn.
    exists c, st', n. split_and!; [reflexivity | exact Hn | | reflexivity].
    rewrite Hp. apply Point_eqb_refl.
  - destruct Hf as (c & n & Efn & Hin & Hn & <- & _ & <- & Hleft & Hright).
    rewrite Efn. cbn. rewrite Hn. cbn.
    destruct (Point_eqb N (point n) pt) eqn:Ep.
    { exists c, st, n. unfold Point_neqb. rewrite Ep. simpl. auto. }
    set (h := nodes st) in *.
    set (nw := fresh (dom h)).
    assert (Hnw : nw ∉ dom h) by apply is_fresh.
    assert (Hc : c ∈ dom h) by (apply elem_of_dom; eauto).
    assert (Hcn : c <> nw) by set_solver.
    set (leaf := mkNode pt None None (level n + 1) dflt).
    set (h1 := <[nw := leaf]> h).
    set (b := Qltb (coord pt (level n mod N)) (coord (point n) (level n mod N))).
    set (st1 := {| nodes := if b then alter (with_left (Some nw)) c h1
                            else alter (with_right (Some nw)) c h1;
                   objects := <[a := {| root_ := root_ o; size_ := size_ o + 1 |}]>
                                (objects st) |}).
    assert (Ei : insert N st a pt dflt = Some st1).
    { unfold insert. rewrite Ho. cbn. fold h. rewrite Efn. cbn. rewrite Hn. cbn.
      rewrite Ep. reflexivity. }
    assert (Hleaf : nodes st1 !! nw = Some leaf).
    { unfold st1. cbn. destruct b; rewrite lookup_alter_ne by done;
        apply lookup_insert_eq. }
    assert (Hn1 : nodes st1 !! c
                  = Some (if b then with_left (Some nw) n else with_right (Some nw) n)).
    { unfold st1. cbn. destruct b; rewrite lookup_alter_eq; unfold h1;
        rewrite lookup_insert_ne by done; now rewrite Hn. }
    assert (Hother : forall l0, l0 <> c -> l0 ∈ dom h -> nodes st1 !! l0 = h !! l0).
    { intros l0 H1 H2. unfold st1. cbn. apply link_lookup_ne; [exact H1 | set_solver]. }
    assert (Hpl : Point_eqb N (point leaf) pt = true) by apply Point_eqb_refl.
    clearbody st1. clear Hnw. clearbody h1. clearbody leaf.
    rewrite Ei. cbn. rewrite Hn1. cbn.
    assert (Hret : exists l st' n0,
        (_ ← nodes st1 !! nw; Some (nw, st1)) = Some (l, st') /\
        nodes st' !! l = Some n0 /\ Point_eqb N (point n0) pt = true /\
        Some st1 = Some st').
    { rewrite Hleaf. cbn. exists nw, st1, leaf. auto. }
    destruct b.
    + cbn. rewrite Hleaf. cbn. rewrite Hpl. exists nw, st1, leaf. auto.
    + cbn. destruct (left n) as [l0|] eqn:El; [|exact Hret].
      destruct (Hleft l0 eq_refl) as [Hl0c [ln Hln]].
      rewrite (Hother l0); [|exact Hl0c | apply elem_of_dom; eauto].
      rewrite Hln. cbn.
      destruct (Point_eqb N (point ln) pt) eqn:Eln; [|exact Hret].
      exists l0, st1, ln. split_and!; [reflexivity | | exact Eln | reflexivity].
      rewrite (Hother l0); [exact Hln | exact Hl0c | apply elem_of_dom; eauto].
Qed.
(** The footprint of a tree has one location per node. *)
Lemma repr_size h p t F : repr h p t F -> size F = length (KD.bindings t).
Proof.
  induction 1 as [|c n tl tr Fl Fr F Hc Hl IHl Hr IHr Hcl Hcr Hd HF].
  - apply size_empty.
  - subst F. cbn. rewrite length_app, <- IHl, <- IHr.
    rewrite <- union_assoc_L. rewrite size_union by set_solver.
    rewrite size_singleton. rewrite size_union by set_solver. reflexivity.
Qed.

(** X20: copying an object and destroying the copy gives back the store
    as it was before the copy: every node the copy constructor allocates
    is freed by the destructor, and no other node or object is touched. *)
Theorem copy_then_destroy_restores st a (T : KD.KDTree ElemType) F :
  holds st a T F ->
  exists c st1,
    copy_construct st a = Some (c, st1) /\
    dom (nodes st) ⊆ dom (nodes st1) /\
    size (dom (nodes st1)) = size (dom (nodes st)) + length (KD.bindings (KD.root_ T)) /\
    destroy st1 c = Some st.
Proof.
  intros (o & Ho & Hr & Hs). unfold copy_construct. rewrite Ho. cbn.
  destruct (deepcopyTree_spec _ _ _ _ _ Hr (repr_fuel _ _ _ _ Hr))
    as (r & h' & F' & Ec & Hr' & Hd & Hdom & Hag).
  rewrite Ec. cbn.
  set (c := fresh (dom (objects st))).
  assert (Hc : objects st !! c = None).
  { apply not_elem_of_dom. apply is_fresh. }
  eexists c, _. split; [reflexivity|]. cbn.
  split; [rewrite Hdom; set_solver|].
  split.
  { rewrite Hdom. rewrite size_union by set_solver.
    f_equal. eapply repr_size. exact Hr'. }
  unfold destroy. cbn. rewrite lookup_insert_eq. cbn.
  destruct (freeResource_spec _ _ _ _ _ Hr' (repr_fuel _ _ _ _ Hr'))
    as (h2 & Ef & Hdom2 & Hag2).
  rewrite Ef. cbn. destruct st as [hs os]. cbn in *. f_equal. f_equal.
  - apply map_eq. intros l. destruct (decide (l ∈ F')) as [Hl|Hl].
    + transitivity (@None (Node ElemType)).
      * apply not_elem_of_dom. rewrite Hdom2. set_solver.
      * symmetry. apply not_elem_of_dom. set_solver.
    + rewrite (Hag2 l Hl). destruct (decide (l ∈ dom hs)) as [Hi|Hi].
      * now apply Hag.
      * transitivity (@None (Node ElemType)).
        -- apply not_elem_of_dom. rewrite Hdom. set_solver.
        -- symmetry. now apply not_elem_of_dom.
  - rewrite delete_insert_eq. now apply delete_id.
Qed.

(** X21: assignment from another object frees exactly the nodes the
    receiver had and allocates the nodes of the copy; the source and every
    node outside the receiver's old tree are as before, the receiver then
    stands for the tree of the source on nodes of its own.  Assignment of an
    object to itself leaves the store as it is. *)
Theorem assign_frees_receiver st a c (Ta Tc : KD.KDTree ElemType) Fa Fc :
  a <> c -> holds st a Ta Fa -> holds st c Tc Fc -> Fa ## Fc ->
  assign st a a = Some st /\
  exists st1 F',
    assign st c a = Some st1 /\
    holds st1 a Ta Fa /\ holds st1 c Ta F' /\ Fa ## F' /\
    dom (nodes st1) = (dom (nodes st) ∖ Fc) ∪ F' /\
    F' ## dom (nodes st) ∖ Fc /\
    (forall l, l ∈ dom (nodes st) -> l ∉ Fc -> nodes st1 !! l = nodes st !! l).
Proof.
  intros Hne Ha Hc Hd. split; [apply assign_self|].
  destruct Ha as (oa & Hoa & Hra & Hsa). destruct Hc as (oc & Hoc & Hrc & Hsc).
  unfold assign. destruct (decide (c = a)) as [->|_]; [congruence|].
  rewrite Hoc. cbn.
  destruct (freeResource_spec _ _ _ _ _ Hrc (repr_fuel _ _ _ _ Hrc))
    as (h1 & Ef & Hdom1 & Hag1).
  rewrite Ef. cbn. rewrite Hoa. cbn.
  assert (Hra1 : repr h1 (root_ oa) (KD.root_ Ta) Fa).
  { eapply repr_frame; [exact Hra|]. intros l Hl. apply Hag1. set_solver. }
  destruct (deepcopyTree_spec _ _ _ _ _ Hra1 (repr_fuel _ _ _ _ Hra1))
    as (r & h2 & F' & Ec & Hr' & Hd2 & Hdom2 & Hag2).
  rewrite Ec. cbn.
  pose proof (repr_dom _ _ _ _ Hra1) as HF.
  eexists _, F'. split; [reflexivity|]. cbn. split_and!.
  - exists oa. cbn. split_and!; [now rewrite lookup_insert_ne | | exact Hsa].
    eapply repr_frame; [exact Hra1|]. intros l Hl. apply Hag2. set_solver.
  - eexists. cbn. split_and!; [apply lookup_insert_eq | exact Hr' | exact Hsa].
  - set_solver.
  - rewrite Hdom2, Hdom1. reflexivity.
  - rewrite <- Hdom1. exact Hd2.
  - intros l Hl Hnl. rewrite Hag2 by (rewrite Hdom1; set_solver). now apply Hag1.
Qed.

(** X22: the default constructor makes an object that stands for the empty
    tree and owns no node: its size is 0, it is empty, it contains no point
    and [at] raises for every point; the nodes and the other objects of the
    store are as before. *)
Theorem construct_empty_is_empty st pt :
  let '(this, st') := construct_empty st in
  ((this ∉ dom (objects st)) /\
   holds st' this (@KD.KDTree_empty ElemType) ∅ /\
   nodes st' = nodes st /\
   (forall b, b <> this -> objects st' !! b = objects st !! b) /\
   KD.size (@KD.KDTree_empty ElemType) = 0 /\
   KD.empty (@KD.KDTree_empty ElemType) = true /\
   contains N st' this pt = Some false /\
   at_ N st' this pt = Some (inl KD.out_of_range)).
Proof.
  unfold construct_empty. set (this := fresh (dom (objects st))).
  split_and!.
  - apply is_fresh.
  - eexists. cbn. split_and!; [apply lookup_insert_eq | constructor | reflexivity].
  - reflexivity.
  - intros b Hb. cbn. now apply lookup_insert_ne.
  - reflexivity.
  - reflexivity.
  - unfold contains. cbn. rewrite lookup_insert_eq. cbn.
    unfold fuel_of. reflexivity.
  - unfold at_. cbn. rewrite lookup_insert_eq. cbn.
    unfold fuel_of. reflexivity.
Qed.
End Props.
End StoreProps.

(* ================================================================== *)
(** * The further properties at concrete inputs *)

Module MoreAtInputs.
Import Examples.

Ltac full_queue_reachable := unfold full_queue; repeat constructor.

Ltac one_node_holds :=
  exists (Store.mkKDTree (Some 1%positive) 1);
  split; [reflexivity|]; split; [|reflexivity];
  apply (Store.repr_node _ 1%positive (Store.mkNode [1; 2]%Q None None 0 5)
           KD.NULL KD.NULL ∅ ∅);
  [ reflexivity | constructor | constructor | apply not_elem_of_empty
  | apply not_elem_of_empty | apply disjoint_empty_l | vm_compute; reflexivity ].

Ltac empty_tree_invariant :=
  unfold KD.tree_invariant; simpl; repeat split; constructor.

(** [dequeueMin_removes_best] on the full queue: the entry of priority 1/2
    is taken out. *)
Lemma dequeueMin_at_full_queue :
  BoundedPQueue.reachable full_queue /\
  exists p q',
    BoundedPQueue.dequeueMin full_queue = Some (10, q') /\
    BoundedPQueue.best full_queue = Finite p /\
    BoundedPQueue.size q' + 1 = BoundedPQueue.size full_queue.
Proof.
  assert (Hr : BoundedPQueue.reachable full_queue) by full_queue_reachable.
  split; [exact Hr|].
  destruct (BoundedPQueueProps.dequeueMin_removes_best full_queue Hr) as [_ Hd].
  destruct (Hd 10 _ eq_refl) as (p & _ & Hb & _ & Hs & _).
  exists p. eexists. split; [reflexivity|]. split; [exact Hb | exact Hs].
Defined.


(** [insert_leaves_other_points]: inserting (9, 9) does not change what is
    read for (1/2, 0). *)
Lemma insert_leaves_other_points_at_three_tree :
  Point_eqb 2 [9; 9]%Q [1 # 2; 0]%Q = false /\
  KD.at_ 2 (KD.insert 2 three_tree [9; 9]%Q 5) [1 # 2; 0]%Q
  = KD.at_ 2 three_tree [1 # 2; 0]%Q.
Proof.
  split; [reflexivity|].
  apply (KDProps.insert_leaves_other_points 2 three_tree [9; 9]%Q [1 # 2; 0]%Q 5).
  reflexivity.
Defined.

(** [insert_keeps_invariant] for the first insert into the empty tree. *)
Lemma insert_keeps_invariant_at_empty :
  0 < 2 /\ KD.tree_invariant 2 (@KD.KDTree_empty nat) /\
  KD.tree_invariant 2 (KD.insert 2 KD.KDTree_empty [1; 2]%Q 5).
Proof.
  assert (Hinv : KD.tree_invariant 2 (@KD.KDTree_empty nat)) by empty_tree_invariant.
  split; [lia|]. split; [exact Hinv|].
  apply (KDProps.insert_keeps_invariant 2 KD.KDTree_empty [1; 2]%Q 5); [lia | exact Hinv].
Defined.

(** [KDTree_build_guarantees] for [five_points]. *)
Lemma KDTree_build_guarantees_at_five_points :
  KD.nth_element_ok (@KD.nth_element_lazy nat) /\
  Permutation (KD.bindings (KD.root_ five_tree)) five_points /\
  KD.split_invariant 2 (KD.root_ five_tree).
Proof.
  pose proof (@KDFacts.nth_element_lazy_ok nat) as Hok.
  split; [exact Hok|].
  destruct (KDProps.KDTree_build_guarantees 2 KD.nth_element_lazy five_points Hok)
    as (Hp & _ & Hs).
  split; [exact Hp | exact Hs].
Defined.

(** [KDTree_build_is_balanced] for [spread_points]: four points, height at
    most 3. *)
Lemma KDTree_build_is_balanced_at_spread_points :
  KD.nth_element_ok (@KD.nth_element_lazy nat) /\ 0 < 2 /\
  KD.coordinates_differ 2 spread_points /\ spread_points <> [] /\
  KD.height (KD.root_ spread_tree) <= Nat.log2 (length spread_points) + 1.
Proof.
  pose proof (@KDFacts.nth_element_lazy_ok nat) as Hok.
  assert (Hd : KD.coordinates_differ 2 spread_points).
  { apply KDProps.coordinates_differb_spec. vm_compute. reflexivity. }
  split; [exact Hok|]. split; [lia|]. split; [exact Hd|]. split; [discriminate|].
  apply (KDProps.KDTree_build_is_balanced 2 KD.nth_element_lazy spread_points Hok);
    [lia | exact Hd | discriminate].
Defined.


(** [search_retains_all_when_k_large] for the three nodes of [three_tree]
    and k = 3. *)
Lemma search_retains_all_at_three_tree :
  length (KD.bindings (KD.root_ three_tree)) <= 3 /\
  Permutation
    (BoundedPQueue.elems
       (KD.nearestNeighborRecurse 2 (KD.root_ three_tree) [0; 0]%Q (BoundedPQueue.create 3)))
    (KD.entries 2 (KD.root_ three_tree) [0; 0]%Q).
Proof.
  assert (Hk : length (KD.bindings (KD.root_ three_tree)) <= 3) by (vm_compute; lia).
  split; [exact Hk|].
  apply (KDProps.search_retains_all_when_k_large 2 three_tree [0; 0]%Q 3 Hk).
Defined.

(** [kNNValue_returns_a_most_frequent_label] for [three_tree] and k = 3. *)
Lemma kNNValue_most_frequent_at_three_tree :
  KD.empty three_tree = false /\ KD.is_NULL (KD.root_ three_tree) = false /\ 0 < 3 /\
  exists p, In (p, KD.kNNValue 2 three_tree [0; 0]%Q 3) (KD.bindings (KD.root_ three_tree)).
Proof.
  split; [reflexivity|]. split; [reflexivity|]. split; [lia|].
  apply (KDProps.kNNValue_returns_a_most_frequent_label 2 three_tree [0; 0]%Q 3);
    [reflexivity | reflexivity | lia].
Defined.


(** [members_agree_with_value_layer] for the store with one object. *)
Lemma members_agree_at_one_node :
  Store.holds one_node_store 1%positive one_node_tree {[ 1%positive ]} /\
  Store.contains 2 one_node_store 1%positive [1; 2]%Q
  = Some (KD.contains 2 one_node_tree [1; 2]%Q) /\
  Store.at_ 2 one_node_store 1%positive [1; 2]%Q
  = Some (KD.at_ 2 one_node_tree [1; 2]%Q).
Proof.
  assert (H : Store.holds one_node_store 1%positive one_node_tree {[ 1%positive ]})
    by one_node_holds.
  split; [exact H|].
  destruct (StoreProps.members_agree_with_value_layer 2 one_node_store 1%positive
              one_node_tree _ [1; 2]%Q 0 H) as (H1 & H2 & _).
  split; [exact H1 | exact H2].
Defined.

(** [destroy_frees_own_nodes] for the store with one object. *)
Lemma destroy_at_one_node :
  Store.holds one_node_store 1%positive one_node_tree {[ 1%positive ]} /\
  exists st',
    Store.destroy one_node_store 1%positive = Some st' /\
    dom (Store.nodes st') = dom (Store.nodes one_node_store) ∖ {[ 1%positive ]}.
Proof.
  assert (H : Store.holds one_node_store 1%positive one_node_tree {[ 1%positive ]})
    by one_node_holds.
  split; [exact H|].
  destruct (StoreProps.destroy_frees_own_nodes one_node_store 1%positive one_node_tree _ H)
    as (st' & E & Hd & _).
  exists st'. split; [exact E | exact Hd].
Defined.

(** [index_refers_to_node_of_point] for the store with one object and a
    point that is not stored. *)
Lemma index_at_one_node :
  Store.holds one_node_store 1%positive one_node_tree {[ 1%positive ]} /\
  exists l st' n,
    Store.index 2 one_node_store 1%positive [3; 4]%Q 0 = Some (l, st') /\
    Store.nodes st' !! l = Some n /\
    Point_eqb 2 (Store.point n) [3; 4]%Q = true.
Proof.
  assert (H : Store.holds one_node_store 1%positive one_node_tree {[ 1%positive ]})
    by one_node_holds.
  split; [exact H|].
  destruct (StoreProps.index_refers_to_node_of_point 2 one_node_store 1%positive
              one_node_tree _ [3; 4]%Q 0 H) as (l & st' & n & E & Hn & Hp & _).
  exists l, st', n. split; [exact E|]. split; [exact Hn | exact Hp].
Defined.

(** [copy_then_destroy_restores] for the store with one object. *)
Lemma copy_then_destroy_at_one_node :
  Store.holds one_node_store 1%positive one_node_tree {[ 1%positive ]} /\
  exists c st1,
    Store.copy_construct one_node_store 1%positive = Some (c, st1) /\
    Store.destroy st1 c = Some one_node_store.
Proof.
  assert (H : Store.holds one_node_store 1%positive one_node_tree {[ 1%positive ]})
    by one_node_holds.
  split; [exact H|].
  destruct (StoreProps.copy_then_destroy_restores one_node_store 1%positive
              one_node_tree _ H) as (c & st1 & E & _ & _ & Hd).
  exists c, st1. split; [exact E | exact Hd].
Defined.

(** [assign_frees_receiver] for the store with two objects: the object at
    address 2 is assigned the object at address 1. *)
Lemma assign_at_two_objects :
  1%positive <> 2%positive /\
  Store.holds two_object_store 1%positive one_node_tree {[ 1%positive ]} /\
  Store.holds two_object_store 2%positive other_node_tree {[ 2%positive ]} /\
  ({[ 1%positive ]} : gset positive) ## {[ 2%positive ]} /\
  exists st1 F',
    Store.assign two_object_store 2%positive 1%positive = Some st1 /\
    Store.holds st1 2%positive one_node_tree F' /\
    dom (Store.nodes st1) = (dom (Store.nodes two_object_store) ∖ {[ 2%positive ]}) ∪ F'.
Proof.
  assert (Hne : 1%positive <> 2%positive) by discriminate.
  assert (H1 : Store.holds two_object_store 1%positive one_node_tree {[ 1%positive ]}).
  { exists (Store.mkKDTree (Some 1%positive) 1).
    split; [reflexivity|]. split; [|reflexivity].
    apply (Store.repr_node _ 1%positive (Store.mkNode [1; 2]%Q None None 0 5)
             KD.NULL KD.NULL ∅ ∅);
      [ reflexivity | constructor | constructor | apply not_elem_of_empty
      | apply not_elem_of_empty | apply disjoint_empty_l | vm_compute; reflexivity ]. }
  assert (H2 : Store.holds two_object_store 2%positive other_node_tree {[ 2%positive ]}).
  { exists (Store.mkKDTree (Some 2%positive) 1).
    split; [reflexivity|]. split; [|reflexivity].
    apply (Store.repr_node _ 2%positive (Store.mkNode [3; 4]%Q None None 0 6)
             KD.NULL KD.NULL ∅ ∅);
      [ reflexivity | constructor | constructor | apply not_elem_of_empty
      | apply not_elem_of_empty | apply disjoint_empty_l | vm_compute; reflexivity ]. }
  assert (Hd : ({[ 1%positive ]} : gset positive) ## {[ 2%positive ]}).
  { apply disjoint_singleton_l. apply not_elem_of_singleton. discriminate. }
  split; [exact Hne|]. split; [exact H1|]. split; [exact H2|]. split; [exact Hd|].
  destruct (StoreProps.assign_frees_receiver two_object_store 1%positive 2%positive
              one_node_tree other_node_tree _ _ Hne H1 H2 Hd)
    as (_ & st1 & F' & E & _ & Hc & _ & Hdom & _).
  exists st1, F'. split; [exact E|]. split; [exact Hc | exact Hdom].
Defined.

End MoreAtInputs.
